(** * aslam_cv2: pinhole projection model and intrinsics initialisation

    A shallow embedding of [aslam_cameras/src/pinhole-camera.cc]
    (class template [PinholeProjection<DISTORTION_T>]) and of the
    [PinholeHelpers] header, together with the properties of the design
    document that can be settled on it.

    Conventions of the embedding:
    - a C++ [double] is an idealised real number ([R]); rounding, NaN and
      infinities are outside the model.  Comparisons that the code uses as
      conditions are the boolean tests of [Module Dbl];
    - [int] fields are integers ([Z]); [size_t] counters are [nat];
    - output parameters are returned as values.  Where the size of an Eigen
      output matters (the Jacobian overloads), the output is an
      [Eigen.Matrix] with its run-time dimensions, and every resize,
      coefficient write and block access carries Eigen's range assertion;
    - the distortion model, the rigid transformation and the OpenCV solvers
      are collaborators and enter as type classes; the grid observation is
      a record of its accessors. *)

From Stdlib Require Import Reals Lra Lia ZArith List Bool Arith.
Import ListNotations.

Open Scope R_scope.

(* ================================================================== *)
(** * Doubles and their comparisons *)

Module Dbl.

Definition ltb (a b : R) : bool := if Rlt_dec a b then true else false.
Definition leb (a b : R) : bool := if Rle_dec a b then true else false.
Definition gtb (a b : R) : bool := ltb b a.
Definition geb (a b : R) : bool := leb b a.

(** [std::numeric_limits<double>::max()]. *)
Definition DBL_MAX : R := (2 - / 2 ^ 52) * 2 ^ 1023.

(** Conversion [double -> int]: truncation towards zero. *)
Definition to_int (x : R) : Z :=
  if Rle_dec 0 x then Int_part x else (- Int_part (- x))%Z.

Definition square (x : R) : R := x * x.
Definition hypot (a b : R) : R := sqrt (square a + square b).

End Dbl.

Import Dbl.

(* ================================================================== *)
(** * Fixed-size vectors and the 2x2 Jacobian of a distortion *)

Record Vector2d := Vec2 { v2_0 : R; v2_1 : R }.
Record Vector3d := Vec3 { v3_0 : R; v3_1 : R; v3_2 : R }.
Record Vector4d := Vec4 { v4_0 : R; v4_1 : R; v4_2 : R; v4_3 : R }.

Record Matrix2d := Mat2 { m00 : R; m01 : R; m10 : R; m11 : R }.

(** [ph.head<3>()] and unary minus on a 3-vector. *)
Definition head3 (ph : Vector4d) : Vector3d :=
  Vec3 (v4_0 ph) (v4_1 ph) (v4_2 ph).

Definition neg3 (p : Vector3d) : Vector3d :=
  Vec3 (- v3_0 p) (- v3_1 p) (- v3_2 p).

(** [(y - yhat).norm()] *)
Definition dist2 (y yhat : Vector2d) : R :=
  sqrt (square (v2_0 y - v2_0 yhat) + square (v2_1 y - v2_1 yhat)).

(* ================================================================== *)
(** * Eigen dense storage with range assertions *)

Module Eigen.

(** A call either completes or trips one of Eigen's assertions. *)
Inductive result (A : Type) : Type :=
| Ok (a : A)
| AssertionFailed.
Arguments Ok {A} a.
Arguments AssertionFailed {A}.

Definition bind {A B} (m : result A) (k : A -> result B) : result B :=
  match m with
  | Ok a => k a
  | AssertionFailed => AssertionFailed
  end.

(** A matrix as the callee sees it: whether its type has compile-time
    dimensions (a fixed-size matrix or a block expression), its current
    dimensions, and its coefficients. *)
Record Matrix := mkMatrix {
  fixedSize : bool;
  rows : nat;
  cols : nat;
  coeff : nat -> nat -> R
}.

(** [EIGEN_STATIC_ASSERT_MATRIX_SPECIFIC_SIZE_OR_DYNAMIC(T, r, c)] *)
Definition specificSizeOrDynamic (m : Matrix) (r c : nat) : Prop :=
  fixedSize m = true -> rows m = r /\ cols m = c.

(** [m.derived().resize(r, c)]: a fixed-size object only accepts its own
    dimensions; a dynamic one takes the new dimensions (its coefficients
    are then unspecified, every caller here overwrites them). *)
Definition resize (m : Matrix) (r c : nat) : result Matrix :=
  if fixedSize m then
    if (rows m =? r)%nat && (cols m =? c)%nat then Ok m else AssertionFailed
  else Ok (mkMatrix false r c (coeff m)).

Definition setZero (m : Matrix) : Matrix :=
  mkMatrix (fixedSize m) (rows m) (cols m) (fun _ _ => 0).

(** [m(i, j) = x] *)
Definition write (m : Matrix) (i j : nat) (x : R) : result Matrix :=
  if (i <? rows m)%nat && (j <? cols m)%nat then
    Ok (mkMatrix (fixedSize m) (rows m) (cols m)
          (fun i' j' => if (i' =? i)%nat && (j' =? j)%nat then x
                        else coeff m i' j'))
  else AssertionFailed.

(** [m.topLeftCorner<r, c>()]: a fixed-size view on the first [r] rows
    and [c] columns. *)
Definition topLeftCorner (m : Matrix) (r c : nat) : result Matrix :=
  if (r <=? rows m)%nat && (c <=? cols m)%nat then
    Ok (mkMatrix true r c (coeff m))
  else AssertionFailed.

(** What the owner of [m] sees after the callee has written the view [b]. *)
Definition storeTopLeft (m b : Matrix) : Matrix :=
  mkMatrix (fixedSize m) (rows m) (cols m)
    (fun i j => if (i <? rows b)%nat && (j <? cols b)%nat then coeff b i j
                else coeff m i j).

(** [m *= Jd] for a 2x2 right factor. *)
Definition mulRight2 (m : Matrix) (Jd : Matrix2d) : result Matrix :=
  if (cols m =? 2)%nat then
    Ok (mkMatrix (fixedSize m) (rows m) (cols m)
          (fun i j =>
             match j with
             | O => coeff m i 0 * m00 Jd + coeff m i 1 * m10 Jd
             | _ => coeff m i 0 * m01 Jd + coeff m i 1 * m11 Jd
             end))
  else AssertionFailed.

(** [m = -m] *)
Definition negate (m : Matrix) : Matrix :=
  mkMatrix (fixedSize m) (rows m) (cols m) (fun i j => - coeff m i j).

End Eigen.

Import Eigen.

Declare Scope eigen_scope.
Delimit Scope eigen_scope with eigen.
Notation "x <- m ;; k" := (Eigen.bind m (fun x => k))
  (at level 61, m at next level, right associativity) : eigen_scope.
Notation "' pat <- m ;; k" := (Eigen.bind m (fun x => let pat := x in k))
  (at level 61, pat pattern, m at next level, right associativity) : eigen_scope.

(* ================================================================== *)
(** * Function bodies with an early [return] *)

Module Flow.

(** A statement either falls through to the next one or returns. *)
Inductive stmt (A : Type) : Type :=
| Skip
| Return (a : A).
Arguments Skip {A}.
Arguments Return {A} a.

Definition seq {A} (s1 s2 : stmt A) : stmt A :=
  match s1 with
  | Skip => s2
  | Return a => Return a
  end.

(** The value of a body; falling off the end of a non-void function has
    no value. *)
Definition run {A} (body : stmt A) : option A :=
  match body with
  | Skip => None
  | Return a => Some a
  end.

End Flow.

(* ================================================================== *)
(** * The distortion collaborator *)

(** The capability set that [PinholeProjection] uses of [DISTORTION_T]. *)
Class Distortion (D : Type) := {
  distort : D -> Vector2d -> Vector2d;
  (** [distort(point, Jd)]: the distorted point and its 2x2 Jacobian *)
  distortJ : D -> Vector2d -> Vector2d * Matrix2d;
  undistort : D -> Vector2d -> Vector2d;
  undistortJ : D -> Vector2d -> Vector2d * Matrix2d;
  clear : D -> D;
  (** requesting the Jacobian does not change the point *)
  distortJ_point : forall d k, fst (distortJ d k) = distort d k;
  undistortJ_point : forall d k, fst (undistortJ d k) = undistort d k
}.

(** Modelled from the spec: the variant [None] of the distortion family
    (no parameters, identity map), whose source is not part of the
    translation unit. *)
#[export] Instance NoDistortion : Distortion unit := {|
  distort := fun _ k => k;
  distortJ := fun _ k => (k, Mat2 1 0 0 1);
  undistort := fun _ k => k;
  undistortJ := fun _ k => (k, Mat2 1 0 0 1);
  clear := fun d => d;
  distortJ_point := fun _ _ => eq_refl;
  undistortJ_point := fun _ _ => eq_refl
|}.

(* ================================================================== *)
(** * The pinhole projection model *)

(** The data members of [PinholeProjection<DISTORTION_T>]. *)
Record PinholeProjection (D : Type) := mkPinholeProjection {
  _fu : R;
  _fv : R;
  _cu : R;
  _cv : R;
  _ru : Z;
  _rv : Z;
  _recip_fu : R;
  _recip_fv : R;
  _fu_over_fv : R;
  _distortion : D
}.
Arguments mkPinholeProjection {D}.
Arguments _fu {D}.
Arguments _fv {D}.
Arguments _cu {D}.
Arguments _cv {D}.
Arguments _ru {D}.
Arguments _rv {D}.
Arguments _recip_fu {D}.
Arguments _recip_fv {D}.
Arguments _fu_over_fv {D}.
Arguments _distortion {D}.

Definition KeypointDimension : nat := 2.

(** The serialised fields, in the order [save] writes them. *)
Record Archive (D : Type) := mkArchive {
  ar_fu : R;
  ar_fv : R;
  ar_cu : R;
  ar_cv : R;
  ar_ru : Z;
  ar_rv : Z;
  ar_distortion : D
}.
Arguments mkArchive {D}.
Arguments ar_fu {D}.
Arguments ar_fv {D}.
Arguments ar_cu {D}.
Arguments ar_cv {D}.
Arguments ar_ru {D}.
Arguments ar_rv {D}.
Arguments ar_distortion {D}.

Section Projection.

Context {D : Type} `{Distortion D}.

(** The class constant of the serialisation version, declared in the
    header. *)
Variable CLASS_SERIALIZATION_VERSION : nat.

Local Open Scope eigen_scope.

Definition updateTemporaries (P : PinholeProjection D) : PinholeProjection D :=
  mkPinholeProjection (_fu P) (_fv P) (_cu P) (_cv P) (_ru P) (_rv P)
    (1 / _fu P) (1 / _fv P) (_fu P / _fv P) (_distortion P).

(** The constructor taking the six intrinsics and a distortion; the
    caches are whatever the storage held before [updateTemporaries]. *)
Definition construct (focalLengthU focalLengthV imageCenterU imageCenterV : R)
    (resolutionU resolutionV : Z) (distortion : D)
    (junk1 junk2 junk3 : R) : PinholeProjection D :=
  updateTemporaries
    (mkPinholeProjection focalLengthU focalLengthV imageCenterU imageCenterV
       resolutionU resolutionV junk1 junk2 junk3 distortion).

Definition isValid (P : PinholeProjection D) (keypoint : Vector2d) : bool :=
  geb (v2_0 keypoint) 0 && geb (v2_1 keypoint) 0
  && ltb (v2_0 keypoint) (IZR (_ru P))
  && ltb (v2_1 keypoint) (IZR (_rv P)).

Definition euclideanToKeypoint (P : PinholeProjection D) (p : Vector3d)
  : bool * Vector2d :=
  let rz := 1 / v3_2 p in
  let outKeypoint := Vec2 (v3_0 p * rz) (v3_1 p * rz) in
  let outKeypoint := distort (_distortion P) outKeypoint in
  let outKeypoint := Vec2 (_fu P * v2_0 outKeypoint + _cu P)
                          (_fv P * v2_1 outKeypoint + _cv P) in
  (isValid P outKeypoint && gtb (v3_2 p) 0, outKeypoint).

(** The overload with the 2x3 Jacobian [outJp]. *)
Definition euclideanToKeypointJ (P : PinholeProjection D) (p : Vector3d)
    (outJp : Matrix) : result (bool * Vector2d * Matrix) :=
  J <- resize outJp KeypointDimension 3 ;;
  let J := setZero J in
  let rz := 1 / v3_2 p in
  let rz2 := rz * rz in
  let outKeypoint := Vec2 (v3_0 p * rz) (v3_1 p * rz) in
  let '(outKeypoint, Jd) := distortJ (_distortion P) outKeypoint in
  J <- write J 0 0 (_fu P * m00 Jd * rz) ;;
  J <- write J 0 1 (_fu P * m01 Jd * rz) ;;
  J <- write J 0 2 (- _fu P * (v3_0 p * m00 Jd + v3_1 p * m01 Jd) * rz2) ;;
  J <- write J 1 0 (_fv P * m10 Jd * rz) ;;
  J <- write J 1 1 (_fv P * m11 Jd * rz) ;;
  J <- write J 1 2 (- _fv P * (v3_0 p * m10 Jd + v3_1 p * m11 Jd) * rz2) ;;
  let outKeypoint := Vec2 (_fu P * v2_0 outKeypoint + _cu P)
                          (_fv P * v2_1 outKeypoint + _cv P) in
  Ok (isValid P outKeypoint && gtb (v3_2 p) 0, outKeypoint, J).

Definition homogeneousToKeypoint (P : PinholeProjection D) (ph : Vector4d)
  : bool * Vector2d :=
  if ltb (v4_3 ph) 0 then euclideanToKeypoint P (neg3 (head3 ph))
  else euclideanToKeypoint P (head3 ph).

(** The call [euclideanToKeypoint(q, outKeypoint,
    J.topLeftCorner<2, 3>())] as the owner of [J] sees it. *)
Definition projectIntoTopLeft (P : PinholeProjection D) (q : Vector3d)
    (J : Matrix) : result (bool * Vector2d * Matrix) :=
  B <- topLeftCorner J 2 3 ;;
  ' (success, k, B') <- euclideanToKeypointJ P q B ;;
  Ok (success, k, storeTopLeft J B').

(** The overload with the 2x4 Jacobian [outJp]: the statements of the body
    in source order, the unconditional [return] first. *)
Definition homogeneousToKeypointJ (P : PinholeProjection D) (ph : Vector4d)
    (outJp : Matrix) : option (result (bool * Vector2d * Matrix)) :=
  Flow.run
    (match resize outJp KeypointDimension 4 with
     | AssertionFailed => Flow.Return AssertionFailed
     | Ok J =>
       let J := setZero J in
       Flow.seq
         (Flow.Return (projectIntoTopLeft P (head3 ph) J))
         (if ltb (v4_3 ph) 0 then
            Flow.Return
              (' (success, k, J') <- projectIntoTopLeft P (neg3 (head3 ph)) J ;;
               Ok (success, k, negate J'))
          else
            Flow.Return (projectIntoTopLeft P (head3 ph) J))
     end).

Definition keypointToEuclidean (P : PinholeProjection D) (keypoint : Vector2d)
  : bool * Vector3d :=
  let kp := keypoint in
  let kp := Vec2 ((v2_0 kp - _cu P) / _fu P) ((v2_1 kp - _cv P) / _fv P) in
  let kp := undistort (_distortion P) kp in
  let outPoint := Vec3 (v2_0 kp) (v2_1 kp) 1 in
  (isValid P keypoint, outPoint).

(** The overload with the 3x2 Jacobian [outJk]. *)
Definition keypointToEuclideanJ (P : PinholeProjection D) (keypoint : Vector2d)
    (outJk : Matrix) : result (bool * Vector3d * Matrix) :=
  let kp := keypoint in
  let kp := Vec2 ((v2_0 kp - _cu P) / _fu P) ((v2_1 kp - _cv P) / _fv P) in
  let '(kp, Jd) := undistortJ (_distortion P) kp in
  let outPoint := Vec3 (v2_0 kp) (v2_1 kp) 1 in
  J <- resize outJk 3 KeypointDimension ;;
  let J := setZero J in
  J <- write J 0 0 (_recip_fu P) ;;
  J <- write J 1 1 (_recip_fv P) ;;
  J <- mulRight2 J Jd ;;
  Ok (isValid P keypoint, outPoint, J).

Definition keypointToHomogeneous (P : PinholeProjection D) (keypoint : Vector2d)
  : bool * Vector4d :=
  let '(valid, p) := keypointToEuclidean P keypoint in
  (valid, Vec4 (v3_0 p) (v3_1 p) (v3_2 p) 0).

(** [p.head<3>()] on the storage of an output vector (a column). *)
Definition head (p : Matrix) (n : nat) : result Matrix :=
  if (n <=? rows p)%nat && (1 <=? cols p)%nat then
    Ok (mkMatrix true n 1 (coeff p))
  else AssertionFailed.

Definition storeHead3 (p : Matrix) (q : Vector3d) : Matrix :=
  mkMatrix (fixedSize p) (rows p) (cols p)
    (fun i j => match i, j with
                | 0%nat, 0%nat => v3_0 q
                | 1%nat, 0%nat => v3_1 q
                | 2%nat, 0%nat => v3_2 q
                | _, _ => coeff p i j
                end).

(** The overload with a Jacobian: [outPoint] and [outJk] are the caller's
    storage. *)
Definition keypointToHomogeneousJ (P : PinholeProjection D)
    (keypoint : Vector2d) (outPoint outJk : Matrix)
  : result (bool * Matrix * Matrix) :=
  Jk <- resize outJk 2 4 ;;
  let Jk := setZero Jk in
  p <- write outPoint 3 0 0 ;;
  _ <- head p 3 ;;
  B <- topLeftCorner Jk 3 2 ;;
  ' (valid, q, B') <- keypointToEuclideanJ P keypoint B ;;
  Ok (valid, storeHead3 p q, storeTopLeft Jk B').

(** [load]: [None] when the version assertion throws. *)
Definition load (P : PinholeProjection D) (ar : Archive D) (version : nat)
  : option (PinholeProjection D) :=
  if (version <=? CLASS_SERIALIZATION_VERSION)%nat then
    Some (updateTemporaries
            (mkPinholeProjection (ar_fu ar) (ar_fv ar) (ar_cu ar) (ar_cv ar)
               (ar_ru ar) (ar_rv ar)
               (_recip_fu P) (_recip_fv P) (_fu_over_fv P)
               (ar_distortion ar)))
  else None.

(** [createRandomKeypoint]; [r] is the outcome of [out.setRandom()], each
    coefficient drawn from the closed interval [-1, 1]. *)
Definition createRandomKeypoint (P : PinholeProjection D) (r : Vector2d)
  : Vector2d :=
  let out := r in
  Vec2 (Rabs (v2_0 out) * IZR (_ru P)) (Rabs (v2_1 out) * IZR (_rv P)).

Definition update (P : PinholeProjection D) (v : R * R * R * R)
  : PinholeProjection D :=
  let '(d0, d1, d2, d3) := v in
  let fu := _fu P + d0 in
  let fv := _fv P + d1 in
  let cu := _cu P + d2 in
  let cv := _cv P + d3 in
  mkPinholeProjection fu fv cu cv (_ru P) (_rv P)
    (1 / fu) (1 / fv) (fu / fv) (_distortion P).

Definition getParameters (P : PinholeProjection D) : R * R * R * R :=
  (_fu P, _fv P, _cu P, _cv P).

Definition setParameters (P : PinholeProjection D) (Pm : R * R * R * R)
  : PinholeProjection D :=
  let '(p0, p1, p2, p3) := Pm in
  updateTemporaries
    (mkPinholeProjection p0 p1 p2 p3 (_ru P) (_rv P)
       (_recip_fu P) (_recip_fv P) (_fu_over_fv P) (_distortion P)).

Definition resizeIntrinsics (P : PinholeProjection D) (scale : R)
  : PinholeProjection D :=
  updateTemporaries
    (mkPinholeProjection (_fu P * scale) (_fv P * scale)
       (_cu P * scale) (_cv P * scale)
       (to_int (IZR (_ru P) * scale)) (to_int (IZR (_rv P) * scale))
       (_recip_fu P) (_recip_fv P) (_fu_over_fv P) (_distortion P)).

End Projection.

(* ================================================================== *)
(** * Collaborators of the intrinsics initialiser *)

(** [GridCalibrationTargetBase]: the accessors the initialiser calls. *)
Module GridTarget.
Record t := mk {
  rows : nat;
  cols : nat;
  size : nat;
  point : nat -> Vector3d
}.
End GridTarget.

(** [GridCalibrationTargetObservation]: an accessor with a validity flag
    and an output parameter is an [option]. *)
Record GridCalibrationTargetObservation := mkObservation {
  target : option GridTarget.t;
  imCols : Z;
  imRows : Z;
  imageGridPoint : nat -> nat -> option Vector2d;
  imagePoint : nat -> option Vector2d;
  getCornersImageFrame : list Vector2d;
  getCornersTargetFrame : list Vector3d
}.

(** The numeric collaborators: [cv::SVD::solveZ] on the rows of [P], and
    [sm::kinematics::Transformation] with the pose that lines 824-837 of
    [estimateTransformation] build from [cv::solvePnP] and [cv::Rodrigues]
    (already inverted, as [out_T_t_c.set] receives it). *)
Class Solvers (T : Type) := {
  solveZ : list (R * R * R * R) -> Vector4d;
  inverse : T -> T;
  transform : T -> Vector3d -> Vector3d;
  poseFromPnP : list Vector3d -> list Vector2d -> T
}.

(** The messages of [SM_DEBUG_STREAM] and [SM_ERROR] in
    [initializeIntrinsics]. *)
Inductive LogEvent : Type :=
| OnlyFirstObservation
| NoTargetObject
| SkippingBadSVD (r : nat)
| SkippingRadialLine (r : nat)
| TestingFocalLength (gamma : R)
| SkippingFailedTransformation (r : nat)
| NewBestEstimate (r : nat) (avgReprojErr minReprojErr : R)
| SkippingTooFewCorners (r count minimum : nat).

(** The local variables of [initializeIntrinsics] that live across the
    iterations of the loop over the rows, with the object itself. *)
Record ScanState (D : Type) := mkScan {
  proj : PinholeProjection D;
  gamma0 : R;
  minReprojErr : R;
  success : bool;
  debugLog : list LogEvent
}.
Arguments mkScan {D}.
Arguments proj {D}.
Arguments gamma0 {D}.
Arguments minReprojErr {D}.
Arguments success {D}.
Arguments debugLog {D}.

Section Initializer.

Context {D : Type} `{Distortion D} {T : Type} `{Solvers T}.

(** The loop of [estimateTransformation] over the corners: the
    correspondences that are kept, in order.  (The source compacts [Ps]
    and [Ms] in place, writing at [count <= i], and resizes both to
    [count].) *)
Fixpoint keepBackProjected (P : PinholeProjection D)
    (Ms : list Vector2d) (Ps : list Vector3d)
  : list (Vector3d * Vector2d) :=
  match Ms, Ps with
  | imagePoint :: Ms', targetPoint :: Ps' =>
    let '(valid, backProjection) := keypointToEuclidean P imagePoint in
    if valid && gtb (v3_2 backProjection) 0 then
      let x := v3_0 backProjection in
      let y := v3_1 backProjection in
      let z := v3_2 backProjection in
      (targetPoint, Vec2 (x / z) (y / z)) :: keepBackProjected P Ms' Ps'
    else keepBackProjected P Ms' Ps'
  | _, _ => []
  end.

(** [estimateTransformation]: [None] for [false]. *)
Definition estimateTransformation (P : PinholeProjection D)
    (obs : GridCalibrationTargetObservation) : option T :=
  let Ms := getCornersImageFrame obs in
  let Ps := getCornersTargetFrame obs in
  let kept := keepBackProjected P Ms Ps in
  let Ps := map fst kept in
  let Ms := map snd kept in
  if (length Ps <? 4)%nat then None
  else Some (poseFromPnP Ps Ms).

(** [computeReprojectionError]: the count returned and [outErr]. *)
Definition computeReprojectionError (P : PinholeProjection D)
    (obs : GridCalibrationTargetObservation) (tgt : GridTarget.t)
    (T_target_camera : T) : nat * R :=
  let T_camera_target := inverse T_target_camera in
  fold_left
    (fun (acc : nat * R) (i : nat) =>
       let '(count, outErr) := acc in
       match imagePoint obs i with
       | Some y =>
         let '(visible, yhat) :=
           euclideanToKeypoint P
             (transform T_camera_target (GridTarget.point tgt i)) in
         if visible then (S count, outErr + dist2 y yhat) else acc
       | None => acc
       end)
    (seq 0 (GridTarget.size tgt)) (0%nat, 0).

(** The rows of the matrix [P] that the inner loop over the columns
    fills: one per valid corner of grid row [r]. *)
Definition cornerRows (Pr : PinholeProjection D)
    (obs : GridCalibrationTargetObservation) (r ncols : nat)
  : list (R * R * R * R) :=
  flat_map
    (fun c =>
       match imageGridPoint obs r c with
       | Some imagePoint =>
         let u := v2_0 imagePoint - _cu Pr in
         let v := v2_1 imagePoint - _cv Pr in
         [(u, v, 0.5, - 0.5 * (square u + square v))]
       | None => []
       end)
    (seq 0 ncols).

Definition MIN_CORNERS : nat := 3.

Definition logged (s : ScanState D) (e : LogEvent) : ScanState D :=
  mkScan (proj s) (gamma0 s) (minReprojErr s) (success s) (debugLog s ++ [e]).

Definition setFocal (P : PinholeProjection D) (gamma : R) : PinholeProjection D :=
  updateTemporaries
    (mkPinholeProjection gamma gamma (_cu P) (_cv P) (_ru P) (_rv P)
       (_recip_fu P) (_recip_fv P) (_fu_over_fv P) (_distortion P)).

(** One iteration of the loop over the grid rows. *)
Definition rowIteration (obs : GridCalibrationTargetObservation)
    (tgt : GridTarget.t) (s : ScanState D) (r : nat) : ScanState D :=
  let Prows := cornerRows (proj s) obs r (GridTarget.cols tgt) in
  let count := length Prows in
  if (MIN_CORNERS <? count)%nat then
    let C := solveZ Prows in
    let t := square (v4_0 C) + square (v4_1 C) + v4_2 C * v4_3 C in
    if ltb t 0 then logged s (SkippingBadSVD r)
    else
      let d := sqrt (1 / t) in
      let nx := v4_0 C * d in
      let ny := v4_1 C * d in
      if gtb (hypot nx ny) 0.95 then logged s (SkippingRadialLine r)
      else
        let nz := sqrt (1 - square nx - square ny) in
        let gamma := Rabs (v4_2 C * d / nz) in
        let s := logged s (TestingFocalLength gamma) in
        let s := mkScan (setFocal (proj s) gamma) (gamma0 s) (minReprojErr s)
                   (success s) (debugLog s) in
        match estimateTransformation (proj s) obs with
        | None => logged s (SkippingFailedTransformation r)
        | Some T_target_camera =>
          let '(numReprojected, reprojErr) :=
            computeReprojectionError (proj s) obs tgt T_target_camera in
          if (MIN_CORNERS <? numReprojected)%nat then
            let avgReprojErr := reprojErr / INR numReprojected in
            if ltb avgReprojErr (minReprojErr s) then
              mkScan (proj s) gamma avgReprojErr true
                (debugLog s ++ [NewBestEstimate r avgReprojErr (minReprojErr s)])
            else s
          else s
        end
  else logged s (SkippingTooFewCorners r count MIN_CORNERS).

(** [initializeIntrinsics]: [None] when the assertion on the number of
    observations throws; otherwise the value returned, the object after
    the call and the messages logged. *)
Definition initializeIntrinsics (P : PinholeProjection D)
    (observations : list GridCalibrationTargetObservation)
  : option (bool * PinholeProjection D * list LogEvent) :=
  match observations with
  | [] => None
  | obs :: others =>
    let log := match others with [] => [] | _ => [OnlyFirstObservation] end in
    match target obs with
    | None => Some (false, P, log ++ [NoTargetObject])
    | Some tgt =>
      let P := mkPinholeProjection (_fu P) (_fv P)
                 ((IZR (imCols obs) - 1.0) / 2.0) ((IZR (imRows obs) - 1.0) / 2.0)
                 (imCols obs) (imRows obs)
                 (_recip_fu P) (_recip_fv P) (_fu_over_fv P)
                 (clear (_distortion P)) in
      let s := fold_left (rowIteration obs tgt)
                 (seq 0 (GridTarget.rows tgt))
                 (mkScan P 0 DBL_MAX false log) in
      let P := setFocal (proj s) (gamma0 s) in
      Some (success s, P, debugLog s)
    end
  end.

End Initializer.

(* ================================================================== *)
(** * The circle helper of [PinholeHelpers] *)

Module PinholeHelpers.

(** What a [return] statement of [intersectCircles] hands to the caller.
    The function is declared to return [std::vector<cv::Point2d> *]; its
    statements [return ipts;] name the vector itself, the statement
    [return &ipts;] the address of [ipts], a local object that is destroyed
    when the call returns. *)
Inductive Returned : Type :=
| Vector (ipts : list Vector2d)
| AddressOfLocal (ipts : list Vector2d).

(** The contents of [ipts] at the [return] statement. *)
Definition contents (r : Returned) : list Vector2d :=
  match r with
  | Vector ipts => ipts
  | AddressOfLocal ipts => ipts
  end.

(** The points the caller can read from the result: the vector that was
    returned, nothing through the address of a destroyed object. *)
Definition points (r : Returned) : option (list Vector2d) :=
  match r with
  | Vector ipts => Some ipts
  | AddressOfLocal _ => None
  end.

Definition intersectCircles (x1 y1 r1 x2 y2 r2 : R) : Returned :=
  let ipts : list Vector2d := [] in
  let d := hypot (x1 - x2) (y1 - y2) in
  if gtb d (r1 + r2) then Vector ipts
  else if ltb d (Rabs (r1 - r2)) then Vector ipts
  else
    let a := (square r1 - square r2 + square d) / (2 * d) in
    let h := sqrt (square r1 - square a) in
    let x3 := x1 + a * (x2 - x1) / d in
    let y3 := y1 + a * (y2 - y1) / d in
    if ltb h 1e-10 then Vector (ipts ++ [Vec2 x3 y3])
    else
      AddressOfLocal
        ((ipts ++ [Vec2 (x3 + h * (y2 - y1) / d) (y3 - h * (x2 - x1) / d)])
               ++ [Vec2 (x3 - h * (y2 - y1) / d) (y3 + h * (x2 - x1) / d)]).

End PinholeHelpers.

(* ================================================================== *)
(** * Fixtures *)

(** [getTestProjection] at the distortion-free variant. *)
Definition getTestProjection : PinholeProjection unit :=
  construct 400 400 320 240 640 480 tt 0 0 0.

(** A stand-in for the numeric collaborators, for running the initialiser
    on concrete observations: the null vector is always [(0, 0, 1, 1)] and
    the pose is the identity. *)
#[export] Instance fixedSolvers : Solvers unit := {|
  solveZ := fun _ => Vec4 0 0 1 1;
  inverse := fun t => t;
  transform := fun _ p => p;
  poseFromPnP := fun _ _ => tt
|}.

(** A dynamic matrix as default-constructed ([Eigen::MatrixXd J;]). *)
Definition emptyMatrixXd : Matrix := mkMatrix false 0 0 (fun _ _ => 0).

(** A fixed-size matrix of the given dimensions. *)
Definition fixedMatrix (r c : nat) : Matrix := mkMatrix true r c (fun _ _ => 0).

(** An observation without a target object. *)
Definition observationWithoutTarget : GridCalibrationTargetObservation :=
  mkObservation None 640 480 (fun _ _ => None) (fun _ => None) [] [].

(** A 1 x 5 grid of which exactly the first three corners of the only row
    were detected. *)
Definition threeCornerTarget : GridTarget.t :=
  GridTarget.mk 1 5 5 (fun i => Vec3 (INR i) 0 0).

Definition threeCornerObservation : GridCalibrationTargetObservation :=
  mkObservation (Some threeCornerTarget) 640 480
    (fun r c => if (c <? 3)%nat then Some (Vec2 (100 + INR c) 200) else None)
    (fun i => if (i <? 3)%nat then Some (Vec2 (100 + INR i) 200) else None)
    [Vec2 100 200; Vec2 101 200; Vec2 102 200]
    [Vec3 0 0 0; Vec3 1 0 0; Vec3 2 0 0].

(** A 1 x 4 grid seen fronto-parallel at unit depth by a camera of unit
    focal length: corner [i] of the target is [(i, 0, 1)] and its pixel is
    the image centre shifted by [i]. *)
Definition fourCornerPixel (i : nat) : Vector2d := Vec2 (319.5 + INR i) 239.5.

Definition fourCornerTarget : GridTarget.t :=
  GridTarget.mk 1 4 4 (fun i => Vec3 (INR i) 0 1).

Definition fourCornerObservation : GridCalibrationTargetObservation :=
  mkObservation (Some fourCornerTarget) 640 480
    (fun r c => if (c <? 4)%nat then Some (fourCornerPixel c) else None)
    (fun i => if (i <? 4)%nat then Some (fourCornerPixel i) else None)
    (map fourCornerPixel (seq 0 4))
    (map (fun i => Vec3 (INR i) 0 1) (seq 0 4)).

(** The quantities of the two-circle construction: the distance of the
    centres, the offset of the chord along the centre line, and the half
    height of the chord. *)
Definition chordDistance (x1 y1 x2 y2 : R) : R := hypot (x1 - x2) (y1 - y2).

Definition chordOffset (r1 r2 d : R) : R :=
  (square r1 - square r2 + square d) / (2 * d).

Definition chordHalfHeight (r1 a : R) : R := sqrt (square r1 - square a).

(** The squared distance of two points of the plane. *)
Definition sqdist (px py qx qy : R) : R := square (px - qx) + square (py - qy).

(** The cached quantities agree with the focal lengths. *)
Definition cachesFresh {D : Type} (P : PinholeProjection D) : Prop :=
  _recip_fu P = 1 / _fu P /\
  _recip_fv P = 1 / _fv P /\
  _fu_over_fv P = _fu P / _fv P.

(** The two steps of the inverse map before the distortion is undone, as
    the design document names them. *)
Definition subtractPrincipalPoint {D : Type} (P : PinholeProjection D)
    (k : Vector2d) : Vector2d :=
  Vec2 (v2_0 k - _cu P) (v2_1 k - _cv P).

Definition divideByFocalLength {D : Type} (P : PinholeProjection D)
    (k : Vector2d) : Vector2d :=
  Vec2 (v2_0 k / _fu P) (v2_1 k / _fv P).

(* ================================================================== *)
(** * The initialiser in the words of the design document *)

Section InitializerSpec.

Context {D : Type} `{Distortion D} {T : Type} `{Solvers T}.

(** Step 1: principal point at the image centre, resolution from the
    image, distortion cleared. *)
Definition centredProjection (P : PinholeProjection D)
    (obs : GridCalibrationTargetObservation) : PinholeProjection D :=
  mkPinholeProjection (_fu P) (_fv P)
    ((IZR (imCols obs) - 1) / 2) ((IZR (imRows obs) - 1) / 2)
    (imCols obs) (imRows obs)
    (_recip_fu P) (_recip_fv P) (_fu_over_fv P)
    (clear (_distortion P)).

(** Steps 2a-2f for one grid row: the candidate focal length and the mean
    reprojection error of a row that survives every skip condition (enough
    corners, a real and non-radial line fit, a pose, enough reprojected
    points); [None] for a row that is skipped. *)
Definition rowCandidate (P : PinholeProjection D)
    (obs : GridCalibrationTargetObservation) (tgt : GridTarget.t) (r : nat)
  : option (R * R) :=
  let corners := cornerRows P obs r (GridTarget.cols tgt) in
  if (MIN_CORNERS <? length corners)%nat then
    let C := solveZ corners in
    let t := square (v4_0 C) + square (v4_1 C) + v4_2 C * v4_3 C in
    if ltb t 0 then None
    else
      let d := sqrt (1 / t) in
      let nx := v4_0 C * d in
      let ny := v4_1 C * d in
      if gtb (hypot nx ny) 0.95 then None
      else
        let nz := sqrt (1 - square nx - square ny) in
        let gamma := Rabs (v4_2 C * d / nz) in
        let Pg := setFocal P gamma in
        match estimateTransformation Pg obs with
        | None => None
        | Some pose =>
          let '(n, err) := computeReprojectionError Pg obs tgt pose in
          if (MIN_CORNERS <? n)%nat then Some (gamma, err / INR n) else None
        end
  else None.

(** Row [r] is the best of the first [n] rows: it has the lowest mean
    error below the initial bound, and is the first row to reach it. *)
Definition bestRow (cand : nat -> option (R * R)) (n r : nat) (g e : R)
  : Prop :=
  (r < n)%nat /\ cand r = Some (g, e) /\ e < DBL_MAX /\
  forall r' g' e',
    (r' < n)%nat -> cand r' = Some (g', e') ->
    e <= e' /\ ((r' < r)%nat -> e < e').

(** Two projections that differ at most in the focal lengths and caches. *)
Definition sameBase (P Q : PinholeProjection D) : Prop :=
  _cu P = _cu Q /\ _cv P = _cv Q /\ _ru P = _ru Q /\ _rv P = _rv Q /\
  _distortion P = _distortion Q.

(** The state of the scan after the first [n] rows. *)
Definition scanned (P1 : PinholeProjection D)
    (obs : GridCalibrationTargetObservation) (tgt : GridTarget.t)
    (log : list LogEvent) (n : nat) : ScanState D :=
  fold_left (rowIteration obs tgt) (seq 0 n) (mkScan P1 0 DBL_MAX false log).

End InitializerSpec.

(* ================================================================== *)
(** * Further members of the projection model *)


(** [p.norm()] of a 3-vector. *)
Definition norm3 (p : Vector3d) : R :=
  sqrt (square (v3_0 p) + square (v3_1 p) + square (v3_2 p)).

(** Componentwise operations on the four intrinsics as a flat vector. *)
Definition addParameters (a b : R * R * R * R) : R * R * R * R :=
  let '(a0, a1, a2, a3) := a in
  let '(b0, b1, b2, b3) := b in
  (a0 + b0, a1 + b1, a2 + b2, a3 + b3).

Section ProjectionMembers.

Context {D : Type} `{Distortion D}.

Local Open Scope eigen_scope.

(** [save]: the fields in the order they are written. *)
Definition save (P : PinholeProjection D) : Archive D :=
  mkArchive (_fu P) (_fv P) (_cu P) (_cv P) (_ru P) (_rv P) (_distortion P).

Definition isEuclideanVisible (P : PinholeProjection D) (p : Vector3d) : bool :=
  let '(visible, k) := euclideanToKeypoint P p in visible.

Definition isHomogeneousVisible (P : PinholeProjection D) (ph : Vector4d)
  : bool :=
  let '(visible, k) := homogeneousToKeypoint P ph in visible.

(** [createRandomVisiblePoint(depth)]; [r] is the draw of
    [createRandomKeypoint] and [u] the quotient [rand() / RAND_MAX], a
    number of the closed interval [0, 1]. *)
Definition createRandomVisiblePoint (P : PinholeProjection D)
    (r : Vector2d) (u : R) (depth : R) : Vector3d :=
  let y := createRandomKeypoint P r in
  let '(_, p) := keypointToEuclidean P y in
  let depth := if ltb depth 0 then u * 100 else depth in
  let n := norm3 p in
  let p := Vec3 (v3_0 p / n) (v3_1 p / n) (v3_2 p / n) in
  Vec3 (v3_0 p * depth) (v3_1 p * depth) (v3_2 p * depth).


(** The eight pixels that [getBorderRays] back-projects, in the order of
    the columns of [rays]. *)
Definition borderKeypoints (P : PinholeProjection D) : list Vector2d :=
  [ Vec2 0.0 0.0;
    Vec2 0.0 (IZR (_rv P) * 0.5);
    Vec2 0.0 (IZR (_rv P) - 1.0);
    Vec2 (IZR (_ru P) - 1.0) 0.0;
    Vec2 (IZR (_ru P) - 1.0) (IZR (_rv P) * 0.5);
    Vec2 (IZR (_ru P) - 1.0) (IZR (_rv P) - 1.0);
    Vec2 (IZR (_ru P) * 0.5) 0.0;
    Vec2 (IZR (_ru P) * 0.5) (IZR (_rv P) - 1.0) ].

(** [getBorderRays]: for each column the flag that the call to
    [keypointToHomogeneous] returns (the source drops it) and the ray
    written. *)
Definition getBorderRays (P : PinholeProjection D)
  : list (bool * Vector4d) :=
  map (keypointToHomogeneous P) (borderKeypoints P).

(** The 2x4 Jacobian with respect to [(fu, fv, cu, cv)]. *)
Definition euclideanToKeypointIntrinsicsJacobian (P : PinholeProjection D)
    (p : Vector3d) (outJi : Matrix) : result Matrix :=
  J <- resize outJi KeypointDimension 4 ;;
  let J := setZero J in
  let rz := 1 / v3_2 p in
  let kp := Vec2 (v3_0 p * rz) (v3_1 p * rz) in
  let kp := distort (_distortion P) kp in
  J <- write J 0 0 (v2_0 kp) ;;
  J <- write J 0 2 1 ;;
  J <- write J 1 1 (v2_1 kp) ;;
  J <- write J 1 3 1 ;;
  Ok J.

Definition homogeneousToKeypointIntrinsicsJacobian (P : PinholeProjection D)
    (p : Vector4d) (outJi : Matrix) : result Matrix :=
  if ltb (v4_3 p) 0.0 then
    euclideanToKeypointIntrinsicsJacobian P (neg3 (head3 p)) outJi
  else
    euclideanToKeypointIntrinsicsJacobian P (head3 p) outJi.

(** [v.at(i) = x] on a [std::vector]: [None] when [at] throws. *)
Definition assignAt {A : Type} (v : list A) (i : nat) (x : A)
  : option (list A) :=
  if (i <? length v)%nat then Some (firstn i v ++ x :: skipn (S i) v)
  else None.

(** One iteration of the loop of [estimateTransformation] over the
    corners, on the vectors [Ms] and [Ps] themselves: the source reads
    element [i] of both and, when the corner is kept, overwrites element
    [count] of both.  [None] when an [at] throws. *)
Definition compactStep (P : PinholeProjection D)
    (state : option (list Vector2d * list Vector3d * nat)) (i : nat)
  : option (list Vector2d * list Vector3d * nat) :=
  match state with
  | None => None
  | Some (Ms, Ps, count) =>
    let targetPoint := nth i Ps (Vec3 0 0 0) in
    let imagePoint := nth i Ms (Vec2 0 0) in
    let '(valid, backProjection) := keypointToEuclidean P imagePoint in
    if valid && gtb (v3_2 backProjection) 0.0 then
      let x := v3_0 backProjection in
      let y := v3_1 backProjection in
      let z := v3_2 backProjection in
      match assignAt Ps count targetPoint with
      | None => None
      | Some Ps' =>
        match assignAt Ms count (Vec2 (x / z) (y / z)) with
        | None => None
        | Some Ms' => Some (Ms', Ps', S count)
        end
      end
    else Some (Ms, Ps, count)
  end.

(** The loop followed by [Ps.resize(count); Ms.resize(count);]. *)
Definition compactCorrespondences (P : PinholeProjection D)
    (Ms : list Vector2d) (Ps : list Vector3d)
  : option (list Vector3d * list Vector2d) :=
  match fold_left (compactStep P) (seq 0 (length Ms)) (Some (Ms, Ps, 0%nat)) with
  | None => None
  | Some (Ms', Ps', count) => Some (firstn count Ps', firstn count Ms')
  end.

End ProjectionMembers.

(* ================================================================== *)
(** * The circle fit of [PinholeHelpers] *)

Module CircleFit.

(** The nine running sums of the first loop. *)
Record Sums := mkSums {
  sum_x : R;
  sum_y : R;
  sum_xx : R;
  sum_xy : R;
  sum_yy : R;
  sum_xxx : R;
  sum_xxy : R;
  sum_xyy : R;
  sum_yyy : R
}.

Definition accumulate (s : Sums) (pt : Vector2d) : Sums :=
  let x := v2_0 pt in
  let y := v2_1 pt in
  mkSums (sum_x s + x) (sum_y s + y)
    (sum_xx s + x * x) (sum_xy s + x * y) (sum_yy s + y * y)
    (sum_xxx s + x * x * x) (sum_xxy s + x * x * y)
    (sum_xyy s + x * y * y) (sum_yyy s + y * y * y).

(** [fitCircle]: the values written to [center_x], [center_y] and
    [radius]. *)
Definition fitCircle (points : list Vector2d) : R * R * R :=
  let s := fold_left accumulate points (mkSums 0 0 0 0 0 0 0 0 0) in
  let n := INR (length points) in
  let A := n * sum_xx s - square (sum_x s) in
  let B := n * sum_xy s - sum_x s * sum_y s in
  let C := n * sum_yy s - square (sum_y s) in
  let D := 0.5 * (n * sum_xyy s - sum_x s * sum_yy s
                  + n * sum_xxx s - sum_x s * sum_xx s) in
  let E := 0.5 * (n * sum_xxy s - sum_y s * sum_xx s
                  + n * sum_yyy s - sum_y s * sum_yy s) in
  let center_x := (D * C - B * E) / (A * C - square B) in
  let center_y := (A * E - B * D) / (A * C - square B) in
  let sum_r :=
    fold_left
      (fun acc pt => acc + hypot (v2_0 pt - center_x) (v2_1 pt - center_y))
      points 0 in
  let radius := sum_r / n in
  (center_x, center_y, radius).

(** The determinant of the normal equations, by which [fitCircle]
    divides. *)
Definition determinant (points : list Vector2d) : R :=
  let s := fold_left accumulate points (mkSums 0 0 0 0 0 0 0 0 0) in
  let n := INR (length points) in
  (n * sum_xx s - square (sum_x s)) * (n * sum_yy s - square (sum_y s))
  - square (n * sum_xy s - sum_x s * sum_y s).

End CircleFit.

(** Four points of the circle of radius 5 about [(1, 2)]. *)
Definition pointsOnCircle : list Vector2d :=
  [Vec2 6 2; Vec2 1 7; Vec2 (-4) 2; Vec2 1 (-3)].

(** [-ph] and [s * p]. *)
Definition negate4 (ph : Vector4d) : Vector4d :=
  Vec4 (- v4_0 ph) (- v4_1 ph) (- v4_2 ph) (- v4_3 ph).

Definition scale3 (s : R) (p : Vector3d) : Vector3d :=
  Vec3 (s * v3_0 p) (s * v3_1 p) (s * v3_2 p).

(** The local variables of the scan that decide its outcome: everything
    but the messages logged. *)
Definition scanCore {D : Type} (s : ScanState D)
  : PinholeProjection D * R * R * bool :=
  (proj s, gamma0 s, minReprojErr s, success s).

(* ================================================================== *)
(** * Properties of the comparisons *)

Lemma ltb_true_iff (a b : R) : ltb a b = true <-> a < b.
Proof. unfold ltb; destruct (Rlt_dec a b); split; auto; discriminate. Qed.

Lemma ltb_false_iff (a b : R) : ltb a b = false <-> b <= a.
Proof.
  unfold ltb; destruct (Rlt_dec a b); split; intros; try discriminate;
    try reflexivity; lra.
Qed.

Lemma leb_true_iff (a b : R) : leb a b = true <-> a <= b.
Proof. unfold leb; destruct (Rle_dec a b); split; auto; discriminate. Qed.

Lemma leb_false_iff (a b : R) : leb a b = false <-> b < a.
Proof.
  unfold leb; destruct (Rle_dec a b); split; intros; try discriminate;
    try reflexivity; lra.
Qed.

Lemma gtb_true_iff (a b : R) : gtb a b = true <-> a > b.
Proof. unfold gtb; rewrite ltb_true_iff; lra. Qed.

Lemma gtb_false_iff (a b : R) : gtb a b = false <-> a <= b.
Proof. unfold gtb; apply ltb_false_iff. Qed.

Lemma geb_true_iff (a b : R) : geb a b = true <-> a >= b.
Proof. unfold geb; rewrite leb_true_iff; lra. Qed.

Lemma geb_false_iff (a b : R) : geb a b = false <-> a < b.
Proof. unfold geb; apply leb_false_iff. Qed.

(* ================================================================== *)
(** * Validity, projection and back-projection *)

Section ProjectionProperties.

Context {D : Type} `{Distortion D}.

Lemma isValid_true_iff (P : PinholeProjection D) (k : Vector2d) :
  isValid P k = true <->
  0 <= v2_0 k < IZR (_ru P) /\ 0 <= v2_1 k < IZR (_rv P).
Proof.
  unfold isValid.
  rewrite !andb_true_iff, !geb_true_iff, !ltb_true_iff. lra.
Qed.

Lemma isValid_false_iff (P : PinholeProjection D) (k : Vector2d) :
  isValid P k = false <->
  v2_0 k < 0 \/ v2_1 k < 0 \/ IZR (_ru P) <= v2_0 k \/ IZR (_rv P) <= v2_1 k.
Proof.
  unfold isValid.
  rewrite !andb_false_iff, !geb_false_iff, !ltb_false_iff. tauto.
Qed.

(** C4.  A keypoint is valid exactly when [0 <= x < ru] and
    [0 <= y < rv], the upper bound being exclusive.  For a positive
    resolution the pixels [(0,0)] and [(ru-1,rv-1)] are valid, a principal
    point inside the bounds is valid, and [(-1,0)], [(-1,-1)] and
    [(ru,rv)] are invalid. *)
Theorem isValid_exclusive_upper_bound (P : PinholeProjection D) :
  (forall k : Vector2d,
      isValid P k = true <->
      0 <= v2_0 k < IZR (_ru P) /\ 0 <= v2_1 k < IZR (_rv P)) /\
  ((0 < _ru P)%Z -> (0 < _rv P)%Z ->
   isValid P (Vec2 0 0) = true /\
   isValid P (Vec2 (IZR (_ru P) - 1) (IZR (_rv P) - 1)) = true) /\
  (0 <= _cu P < IZR (_ru P) -> 0 <= _cv P < IZR (_rv P) ->
   isValid P (Vec2 (_cu P) (_cv P)) = true) /\
  isValid P (Vec2 (-1) 0) = false /\
  isValid P (Vec2 (-1) (-1)) = false /\
  isValid P (Vec2 (IZR (_ru P)) (IZR (_rv P))) = false.
Proof.
  split; [ intro k; apply isValid_true_iff | ].
  split.
  { intros Hru Hrv.
    assert (Hu : 1 <= IZR (_ru P)) by (apply IZR_le; lia).
    assert (Hv : 1 <= IZR (_rv P)) by (apply IZR_le; lia).
    split; apply isValid_true_iff; simpl; lra. }
  split.
  { intros Hcu Hcv. apply isValid_true_iff; simpl; lra. }
  repeat split; apply isValid_false_iff; simpl; lra.
Qed.

(** C1.  For [p.z <> 0] the keypoint written is the distorted
    normalisation [(p.x/p.z, p.y/p.z)] scaled by [(fu, fv)] and offset by
    [(cu, cv)]; it is written whatever the result, and the result is true
    exactly when that keypoint is valid and [p.z > 0]. *)
Theorem euclideanToKeypoint_spec (P : PinholeProjection D) (p : Vector3d) :
  v3_2 p <> 0 ->
  let n := distort (_distortion P)
             (Vec2 (v3_0 p / v3_2 p) (v3_1 p / v3_2 p)) in
  let k := Vec2 (_fu P * v2_0 n + _cu P) (_fv P * v2_1 n + _cv P) in
  snd (euclideanToKeypoint P p) = k /\
  (fst (euclideanToKeypoint P p) = true <->
   isValid P k = true /\ v3_2 p > 0).
Proof.
  intros Hz n k.
  assert (Hn : Vec2 (v3_0 p * (1 / v3_2 p)) (v3_1 p * (1 / v3_2 p))
               = Vec2 (v3_0 p / v3_2 p) (v3_1 p / v3_2 p)).
  { f_equal; field; exact Hz. }
  unfold euclideanToKeypoint; cbv zeta; rewrite Hn; simpl.
  split; [ reflexivity | ].
  rewrite andb_true_iff, gtb_true_iff. reflexivity.
Qed.

(** C5.  The point written is: subtract the principal point, divide by
    the focal lengths, undistort, set [z = 1]; the value returned is
    [isValid] of the keypoint that was passed in. *)
Theorem keypointToEuclidean_spec (P : PinholeProjection D) (k : Vector2d) :
  let u := undistort (_distortion P)
             (divideByFocalLength P (subtractPrincipalPoint P k)) in
  snd (keypointToEuclidean P k) = Vec3 (v2_0 u) (v2_1 u) 1 /\
  fst (keypointToEuclidean P k) = isValid P k.
Proof.
  unfold keypointToEuclidean, divideByFocalLength, subtractPrincipalPoint.
  simpl. split; reflexivity.
Qed.

(** The returned flag ignores the point that was written: two keypoints
    with the same back-projection can get different flags. *)
Lemma keypointToEuclidean_flag_from_input (P : PinholeProjection D)
    (k : Vector2d) :
  isValid P k = false -> fst (keypointToEuclidean P k) = false.
Proof. intros Hk. unfold keypointToEuclidean; simpl. exact Hk. Qed.

(** Draws strictly inside [(-1, 1)] give a valid keypoint on a positive
    resolution. *)
Lemma createRandomKeypoint_interior (P : PinholeProjection D) (r : Vector2d) :
  (0 < _ru P)%Z -> (0 < _rv P)%Z ->
  Rabs (v2_0 r) < 1 -> Rabs (v2_1 r) < 1 ->
  isValid P (createRandomKeypoint P r) = true.
Proof.
  intros Hru Hrv H0 H1.
  apply IZR_lt in Hru. apply IZR_lt in Hrv.
  pose proof (Rabs_pos (v2_0 r)). pose proof (Rabs_pos (v2_1 r)).
  apply isValid_true_iff; unfold createRandomKeypoint; simpl.
  nra.
Qed.

(** C9.  The draws [(1, 1)] and [(-1, -1)], both in the closed square the
    generator draws from, give the keypoint [(ru, rv)], which is not
    valid. *)
Theorem createRandomKeypoint_boundary_invalid (P : PinholeProjection D) :
  createRandomKeypoint P (Vec2 1 1) = Vec2 (IZR (_ru P)) (IZR (_rv P)) /\
  createRandomKeypoint P (Vec2 (-1) (-1)) = Vec2 (IZR (_ru P)) (IZR (_rv P)) /\
  isValid P (createRandomKeypoint P (Vec2 1 1)) = false /\
  isValid P (createRandomKeypoint P (Vec2 (-1) (-1))) = false.
Proof.
  assert (E1 : createRandomKeypoint P (Vec2 1 1)
               = Vec2 (IZR (_ru P)) (IZR (_rv P))).
  { unfold createRandomKeypoint; simpl. rewrite Rabs_R1. f_equal; ring. }
  assert (E2 : createRandomKeypoint P (Vec2 (-1) (-1))
               = Vec2 (IZR (_ru P)) (IZR (_rv P))).
  { unfold createRandomKeypoint; simpl.
    replace (Rabs (-1)) with 1
      by (unfold Rabs; destruct (Rcase_abs (-1)); lra).
    f_equal; ring. }
  rewrite E1, E2.
  repeat split; apply isValid_false_iff; simpl; lra.
Qed.

End ProjectionProperties.

(* ================================================================== *)
(** * The Jacobian overloads and the sizes of their outputs *)

Section JacobianProperties.

Context {D : Type} `{Distortion D}.

(** The Jacobian overload of [euclideanToKeypoint] completes on a 2x3
    output, computes the same flag and keypoint as the plain overload, and
    leaves a 2x3 matrix. *)
Lemma euclideanToKeypointJ_ok (P : PinholeProjection D) (p : Vector3d)
    (outJp : Matrix) :
  specificSizeOrDynamic outJp 2 3 ->
  exists J,
    euclideanToKeypointJ P p outJp
    = Ok (fst (euclideanToKeypoint P p), snd (euclideanToKeypoint P p), J) /\
    rows J = 2%nat /\ cols J = 3%nat /\ fixedSize J = fixedSize outJp.
Proof.
  intros Hsz.
  unfold euclideanToKeypointJ, euclideanToKeypoint, KeypointDimension.
  pose proof (distortJ_point (_distortion P)
                (Vec2 (v3_0 p * (1 / v3_2 p)) (v3_1 p * (1 / v3_2 p)))) as Hpt.
  destruct (distortJ (_distortion P)
              (Vec2 (v3_0 p * (1 / v3_2 p)) (v3_1 p * (1 / v3_2 p))))
    as [k Jd] eqn:HdJ.
  simpl in Hpt. rewrite <- Hpt.
  destruct outJp as [fx r c co].
  unfold specificSizeOrDynamic in Hsz; simpl in Hsz.
  destruct fx.
  - destruct (Hsz eq_refl) as [-> ->]. simpl.
    eexists. split; [ reflexivity | simpl; auto ].
  - simpl. eexists. split; [ reflexivity | simpl; auto ].
Qed.

(** The same for the back-projection on a 3x2 output. *)
Lemma keypointToEuclideanJ_ok (P : PinholeProjection D) (k : Vector2d)
    (outJk : Matrix) :
  specificSizeOrDynamic outJk 3 2 ->
  exists J,
    keypointToEuclideanJ P k outJk
    = Ok (fst (keypointToEuclidean P k), snd (keypointToEuclidean P k), J) /\
    rows J = 3%nat /\ cols J = 2%nat.
Proof.
  intros Hsz.
  unfold keypointToEuclideanJ, keypointToEuclidean, KeypointDimension.
  pose proof (undistortJ_point (_distortion P)
                (Vec2 ((v2_0 k - _cu P) / _fu P) ((v2_1 k - _cv P) / _fv P)))
    as Hpt.
  destruct (undistortJ (_distortion P)
              (Vec2 ((v2_0 k - _cu P) / _fu P) ((v2_1 k - _cv P) / _fv P)))
    as [u Jd] eqn:HuJ.
  simpl in Hpt. rewrite <- Hpt.
  destruct outJk as [fx r c co].
  unfold specificSizeOrDynamic in Hsz; simpl in Hsz.
  destruct fx.
  - destruct (Hsz eq_refl) as [-> ->]. simpl.
    eexists. split; [ reflexivity | simpl; auto ].
  - simpl. eexists. split; [ reflexivity | simpl; auto ].
Qed.

(** Projecting into the top-left 2x3 corner of a zeroed 2x4 matrix leaves
    the last column zero and puts there what the Jacobian overload of
    [euclideanToKeypoint] computes on a 2x3 matrix of its own. *)
Lemma projectIntoTopLeft_2x4 (P : PinholeProjection D) (q : Vector3d)
    (J0 : Matrix) :
  rows J0 = 2%nat -> cols J0 = 4%nat ->
  exists J Je,
    projectIntoTopLeft P q (setZero J0)
    = Ok (fst (euclideanToKeypoint P q), snd (euclideanToKeypoint P q), J) /\
    euclideanToKeypointJ P q (fixedMatrix 2 3)
    = Ok (fst (euclideanToKeypoint P q), snd (euclideanToKeypoint P q), Je) /\
    rows J = 2%nat /\ cols J = 4%nat /\
    (forall i j, (i < 2)%nat -> (j < 3)%nat -> coeff J i j = coeff Je i j) /\
    (forall i, (i < 2)%nat -> coeff J i 3 = 0).
Proof.
  intros Hr Hc.
  destruct J0 as [fx r c co]. simpl in Hr, Hc. subst r c.
  unfold projectIntoTopLeft, topLeftCorner, setZero; simpl.
  unfold euclideanToKeypointJ, euclideanToKeypoint, KeypointDimension.
  pose proof (distortJ_point (_distortion P)
                (Vec2 (v3_0 q * (1 / v3_2 q)) (v3_1 q * (1 / v3_2 q)))) as Hpt.
  destruct (distortJ (_distortion P)
              (Vec2 (v3_0 q * (1 / v3_2 q)) (v3_1 q * (1 / v3_2 q))))
    as [k Jd] eqn:HdJ.
  simpl in Hpt. rewrite <- Hpt. simpl.
  do 2 eexists.
  split; [ reflexivity | ].
  split; [ reflexivity | ].
  simpl.
  split; [ reflexivity | split; [ reflexivity | ] ].
  split.
  - intros i j Hi Hj.
    destruct i as [|[|i]]; [ | | lia ];
      (destruct j as [|[|[|j]]]; [ | | | lia ]); reflexivity.
  - intros i Hi.
    destruct i as [|[|i]]; [ | | lia ]; reflexivity.
Qed.

(** C2.  The overload without a Jacobian projects [-ph.xyz] when
    [ph.w < 0] and [ph.xyz] otherwise.  The overload with a Jacobian
    returns at its first [return] statement: whatever the sign of [ph.w],
    flag and keypoint are those of [euclideanToKeypoint] on [ph.xyz], the
    top-left 2x3 block of the 2x4 Jacobian is the Jacobian of that call, and
    the last column is zero; the negating branch never runs. *)
Theorem homogeneousToKeypoint_sign_handling (P : PinholeProjection D)
    (ph : Vector4d) (outJp : Matrix) :
  specificSizeOrDynamic outJp 2 4 ->
  (v4_3 ph < 0 ->
   homogeneousToKeypoint P ph = euclideanToKeypoint P (neg3 (head3 ph))) /\
  (0 <= v4_3 ph ->
   homogeneousToKeypoint P ph = euclideanToKeypoint P (head3 ph)) /\
  exists J Je,
    homogeneousToKeypointJ P ph outJp
    = Some (Ok (fst (euclideanToKeypoint P (head3 ph)),
                snd (euclideanToKeypoint P (head3 ph)), J)) /\
    euclideanToKeypointJ P (head3 ph) (fixedMatrix 2 3)
    = Ok (fst (euclideanToKeypoint P (head3 ph)),
          snd (euclideanToKeypoint P (head3 ph)), Je) /\
    rows J = 2%nat /\ cols J = 4%nat /\
    (forall i j, (i < 2)%nat -> (j < 3)%nat -> coeff J i j = coeff Je i j) /\
    (forall i, (i < 2)%nat -> coeff J i 3 = 0).
Proof.
  intros Hsz.
  split.
  { intros Hw. unfold homogeneousToKeypoint.
    apply ltb_true_iff in Hw. rewrite Hw. reflexivity. }
  split.
  { intros Hw. unfold homogeneousToKeypoint.
    apply ltb_false_iff in Hw. rewrite Hw. reflexivity. }
  unfold homogeneousToKeypointJ, KeypointDimension.
  assert (Hres : exists J0, resize outJp 2 4 = Ok J0 /\
                            rows J0 = 2%nat /\ cols J0 = 4%nat).
  { destruct outJp as [fx r c co].
    unfold specificSizeOrDynamic in Hsz; simpl in Hsz.
    unfold resize; simpl. destruct fx.
    - destruct (Hsz eq_refl) as [-> ->]. simpl.
      eexists; split; [ reflexivity | auto ].
    - eexists; split; [ reflexivity | auto ]. }
  destruct Hres as (J0 & HJ0 & Hr & Hc).
  rewrite HJ0.
  destruct (projectIntoTopLeft_2x4 P (head3 ph) J0 Hr Hc)
    as (J & Je & HJ & HJe & Hrows & Hcols & Hblock & Hlast).
  exists J, Je.
  unfold Flow.seq, Flow.run. cbv zeta. rewrite HJ.
  repeat split; auto.
Qed.

(** For [ph.w < 0] the two overloads therefore project different points:
    the plain one [-ph.xyz], the one with a Jacobian [ph.xyz]. *)
Lemma homogeneousToKeypointJ_ignores_sign (P : PinholeProjection D)
    (ph : Vector4d) (w' : R) (outJp : Matrix) :
  homogeneousToKeypointJ P ph outJp
  = homogeneousToKeypointJ P
      (Vec4 (v4_0 ph) (v4_1 ph) (v4_2 ph) w') outJp.
Proof.
  unfold homogeneousToKeypointJ.
  destruct (resize outJp KeypointDimension 4); reflexivity.
Qed.

(** C10.  Whatever output Jacobian passes the static assertion (a fixed
    4x2 matrix or a dynamic one), the Jacobian overload of
    [keypointToHomogeneous] trips a range assertion: a fixed 4x2 matrix
    refuses [resize(2, 4)], and a dynamic one, once 2x4, has no 3x2
    top-left corner.  No 4x2 Jacobian is produced. *)
Theorem keypointToHomogeneousJ_out_of_range (P : PinholeProjection D)
    (keypoint : Vector2d) (outPoint outJk : Matrix) :
  specificSizeOrDynamic outJk 4 2 ->
  keypointToHomogeneousJ P keypoint outPoint outJk = AssertionFailed.
Proof.
  intros Hsz.
  destruct outJk as [fx r c co].
  unfold specificSizeOrDynamic in Hsz; simpl in Hsz.
  unfold keypointToHomogeneousJ, resize; simpl.
  destruct fx.
  - destruct (Hsz eq_refl) as [-> ->]. reflexivity.
  - simpl.
    destruct (write outPoint 3 0 0) as [p|]; [ simpl | reflexivity ].
    destruct (head p 3); reflexivity.
Qed.

(** The write [p[3] = 0.0] is itself out of range on an output point that
    the caller did not size: the overload without a Jacobian resizes it to
    4 first, this one does not. *)
Lemma keypointToHomogeneousJ_unsized_point (outPoint : Matrix) :
  (rows outPoint < 4)%nat -> write outPoint 3 0 0 = AssertionFailed.
Proof.
  intros Hlt. unfold write.
  destruct (3 <? rows outPoint)%nat eqn:E; [ | reflexivity ].
  apply Nat.ltb_lt in E. lia.
Qed.

End JacobianProperties.

(* ================================================================== *)
(** * The cached reciprocals *)

Section CacheProperties.

Context {D : Type} `{Distortion D} {T : Type} `{Solvers T}.

Lemma updateTemporaries_fresh (P : PinholeProjection D) :
  cachesFresh (updateTemporaries P).
Proof. unfold cachesFresh, updateTemporaries; simpl; auto. Qed.

(** Every constructor ends in [updateTemporaries]. *)
Lemma construct_fresh (fu fv cu cv : R) (ru rv : Z) (d : D) (j1 j2 j3 : R) :
  cachesFresh (construct fu fv cu cv ru rv d j1 j2 j3).
Proof. apply updateTemporaries_fresh. Qed.

(** C7.  After [update], [setParameters], [resizeIntrinsics], a [load]
    that does not throw, and [initializeIntrinsics] (on an object whose
    caches were fresh, for the path that returns before touching the
    object), the caches are [1/fu], [1/fv] and [fu/fv]. *)
Theorem caches_never_stale :
  (forall (P : PinholeProjection D) v, cachesFresh (update P v)) /\
  (forall (P : PinholeProjection D) Pm, cachesFresh (setParameters P Pm)) /\
  (forall (P : PinholeProjection D) scale,
      cachesFresh (resizeIntrinsics P scale)) /\
  (forall maxVersion (P P' : PinholeProjection D) ar version,
      load maxVersion P ar version = Some P' -> cachesFresh P') /\
  (forall (P P' : PinholeProjection D) observations result log,
      cachesFresh P ->
      initializeIntrinsics P observations = Some (result, P', log) ->
      cachesFresh P').
Proof.
  split.
  { intros P [[[d0 d1] d2] d3]. unfold cachesFresh, update; simpl; auto. }
  split.
  { intros P [[[p0 p1] p2] p3]. unfold setParameters.
    apply updateTemporaries_fresh. }
  split.
  { intros P scale. unfold resizeIntrinsics. apply updateTemporaries_fresh. }
  split.
  { intros maxVersion P P' ar version. unfold load.
    destruct (version <=? maxVersion)%nat; [ | discriminate ].
    intros E; injection E as <-. apply updateTemporaries_fresh. }
  intros P P' observations result log Hfresh.
  unfold initializeIntrinsics.
  destruct observations as [|obs others]; [ discriminate | ].
  destruct (target obs) as [tgt|].
  - intros E; injection E as _ <- _.
    unfold setFocal. apply updateTemporaries_fresh.
  - intros E; injection E as _ <- _. exact Hfresh.
Qed.

End CacheProperties.

(* ================================================================== *)
(** * The scan over the grid rows *)

Section InitializerProperties.

Context {D : Type} `{Distortion D} {T : Type} `{Solvers T}.

Lemma sameBase_refl (P : PinholeProjection D) : sameBase P P.
Proof. unfold sameBase; auto. Qed.

Lemma sameBase_setFocal (P Q : PinholeProjection D) (g : R) :
  sameBase P Q -> setFocal P g = setFocal Q g.
Proof.
  intros (Hcu & Hcv & Hru & Hrv & Hd).
  unfold setFocal, updateTemporaries; simpl.
  rewrite Hcu, Hcv, Hru, Hrv, Hd. reflexivity.
Qed.

Lemma sameBase_cornerRows (P Q : PinholeProjection D) obs r n :
  sameBase P Q -> cornerRows P obs r n = cornerRows Q obs r n.
Proof.
  intros (Hcu & Hcv & _). unfold cornerRows. rewrite Hcu, Hcv. reflexivity.
Qed.

Lemma sameBase_rowCandidate (P Q : PinholeProjection D) obs tgt r :
  sameBase P Q -> rowCandidate P obs tgt r = rowCandidate Q obs tgt r.
Proof.
  intros HPQ. unfold rowCandidate.
  rewrite (sameBase_cornerRows P Q obs r _ HPQ).
  cbv zeta.
  repeat match goal with
         | |- context [setFocal P ?g] =>
           rewrite (sameBase_setFocal P Q g HPQ)
         end.
  reflexivity.
Qed.

(** A row is skipped for its corner count exactly when at most
    [MIN_CORNERS] corners are valid: the message is logged and nothing else
    changes. *)
Lemma rowIteration_few_corners obs tgt (s : ScanState D) (r : nat) :
  (length (cornerRows (proj s) obs r (GridTarget.cols tgt)) <= 3)%nat ->
  rowIteration obs tgt s r
  = logged s (SkippingTooFewCorners r
                (length (cornerRows (proj s) obs r (GridTarget.cols tgt))) 3).
Proof.
  intros Hle. unfold rowIteration, MIN_CORNERS. cbv zeta.
  destruct (3 <? length (cornerRows (proj s) obs r (GridTarget.cols tgt)))%nat
    eqn:E; [ | reflexivity ].
  apply Nat.ltb_lt in E. lia.
Qed.

(** With four or more valid corners the row is not skipped for its count. *)
Lemma rowIteration_enough_corners obs tgt (s : ScanState D) (r : nat) :
  (4 <= length (cornerRows (proj s) obs r (GridTarget.cols tgt)))%nat ->
  forall count m,
    ~ In (SkippingTooFewCorners r count m)
         (skipn (length (debugLog s)) (debugLog (rowIteration obs tgt s r))).
Proof.
  intros Hge count m.
  unfold rowIteration, MIN_CORNERS. cbv zeta.
  destruct (3 <? length (cornerRows (proj s) obs r (GridTarget.cols tgt)))%nat
    eqn:E; [ | apply Nat.ltb_ge in E; lia ].
  assert (Hskip : forall (l : list LogEvent) l', skipn (length l) (l ++ l') = l').
  { intros l l'. induction l; simpl; auto. }
  repeat match goal with
         | |- context [if ?c then _ else _] => destruct c
         | |- context [match ?c with Some _ => _ | None => _ end] => destruct c
         | |- context [let '(_, _) := ?c in _] => destruct c
         end;
    unfold logged; simpl; rewrite <- ?app_assoc, ?Hskip; simpl;
    intuition discriminate.
Qed.

(** What one iteration does to the accumulators, in terms of the row's
    candidate. *)
Lemma rowIteration_step obs tgt (s : ScanState D) (r : nat) :
  let s' := rowIteration obs tgt s r in
  sameBase (proj s') (proj s) /\
  (gamma0 s', minReprojErr s', success s')
  = match rowCandidate (proj s) obs tgt r with
    | Some (g, e) =>
      if ltb e (minReprojErr s) then (g, e, true)
      else (gamma0 s, minReprojErr s, success s)
    | None => (gamma0 s, minReprojErr s, success s)
    end.
Proof.
  unfold rowIteration, rowCandidate. cbv zeta.
  destruct (MIN_CORNERS <? _)%nat; [ | split; [ apply sameBase_refl | reflexivity ] ].
  destruct (ltb _ 0); [ split; [ apply sameBase_refl | reflexivity ] | ].
  destruct (gtb _ 0.95); [ split; [ apply sameBase_refl | reflexivity ] | ].
  simpl proj.
  assert (Hb : forall g, sameBase (setFocal (proj s) g) (proj s)).
  { intros g. unfold sameBase, setFocal, updateTemporaries; simpl; auto. }
  destruct (estimateTransformation _ obs) as [pose|];
    [ | split; [ apply Hb | reflexivity ] ].
  destruct (computeReprojectionError _ obs tgt pose) as [n err].
  destruct (MIN_CORNERS <? n)%nat; [ | split; [ apply Hb | reflexivity ] ].
  simpl minReprojErr.
  destruct (ltb (err / INR n) (minReprojErr s));
    split; try apply Hb; reflexivity.
Qed.

(** The invariant of the scan: after [n] rows the accumulators hold the
    best row so far, or their initial values when no row has recorded. *)
Lemma scanned_invariant (P1 : PinholeProjection D) obs tgt log (n : nat) :
  let s := scanned P1 obs tgt log n in
  let cand := rowCandidate P1 obs tgt in
  sameBase (proj s) P1 /\
  (success s = true ->
   exists r, bestRow cand n r (gamma0 s) (minReprojErr s)) /\
  (success s = false ->
   gamma0 s = 0 /\ minReprojErr s = DBL_MAX /\
   forall r' g' e', (r' < n)%nat -> cand r' = Some (g', e') -> DBL_MAX <= e').
Proof.
  induction n as [|n IH].
  - simpl. split; [ apply sameBase_refl | ].
    split; [ discriminate | ].
    intros _. repeat split; auto. intros; lia.
  - cbv zeta in IH |- *.
    unfold scanned in IH |- *.
    rewrite seq_S, fold_left_app. simpl.
    set (s := fold_left (rowIteration obs tgt) (seq 0 n)
                (mkScan P1 0 DBL_MAX false log)) in *.
    destruct IH as (Hbase & Hyes & Hno).
    destruct (rowIteration_step obs tgt s n) as [Hbase' Hacc].
    cbv zeta in Hbase', Hacc.
    rewrite (sameBase_rowCandidate (proj s) P1 obs tgt n Hbase) in Hacc.
    split.
    { unfold sameBase in *. intuition congruence. }
    destruct (rowCandidate P1 obs tgt n) as [[g e]|] eqn:Hcand.
    + destruct (ltb e (minReprojErr s)) eqn:Hlt.
      * (* row n records *)
        apply ltb_true_iff in Hlt.
        injection Hacc as Hg He Hs. rewrite Hg, He, Hs.
        split; [ | discriminate ].
        intros _. exists n.
        assert (Hmin : minReprojErr s <= DBL_MAX /\
                       forall r' g' e', (r' < n)%nat ->
                         rowCandidate P1 obs tgt r' = Some (g', e') ->
                         minReprojErr s <= e').
        { destruct (success s) eqn:Hsuc.
          - destruct (Hyes eq_refl) as (r0 & _ & _ & Hbound & Hall).
            split; [ lra | ].
            intros r' g' e' Hr' Hc'. apply (Hall r' g' e' Hr' Hc').
          - destruct (Hno eq_refl) as (_ & Hm & Hall).
            split; [ lra | ].
            intros r' g' e' Hr' Hc'. rewrite Hm. apply (Hall r' g' e' Hr' Hc'). }
        destruct Hmin as [Hle Hall].
        split; [ lia | ]. split; [ exact Hcand | ]. split; [ lra | ].
        intros r' g' e' Hr' Hc'.
        destruct (Nat.eq_dec r' n) as [->|Hne].
        -- rewrite Hcand in Hc'. injection Hc' as _ <-. split; [ lra | lia ].
        -- assert (Hr'' : (r' < n)%nat) by lia.
           pose proof (Hall r' g' e' Hr'' Hc'). split; intros; lra.
      * (* row n does not improve on the best so far *)
        apply ltb_false_iff in Hlt.
        injection Hacc as Hg He Hs. rewrite Hg, He, Hs.
        split.
        -- intros Hsuc. destruct (Hyes Hsuc) as (r0 & Hr0 & Hc0 & Hb0 & Hall).
           exists r0.
           split; [ lia | ]. split; [ exact Hc0 | ]. split; [ exact Hb0 | ].
           intros r' g' e' Hr' Hc'.
           destruct (Nat.eq_dec r' n) as [->|Hne].
           ++ rewrite Hcand in Hc'. injection Hc' as _ <-. split; [ lra | lia ].
           ++ assert (Hr'' : (r' < n)%nat) by lia.
              apply (Hall r' g' e' Hr'' Hc').
        -- intros Hsuc. destruct (Hno Hsuc) as (Hg0 & Hm & Hall).
           split; [ exact Hg0 | ]. split; [ exact Hm | ].
           intros r' g' e' Hr' Hc'.
           destruct (Nat.eq_dec r' n) as [->|Hne].
           ++ rewrite Hcand in Hc'. injection Hc' as _ <-. lra.
           ++ assert (Hr'' : (r' < n)%nat) by lia.
              apply (Hall r' g' e' Hr'' Hc').
    + (* row n is skipped *)
      injection Hacc as Hg He Hs. rewrite Hg, He, Hs.
      split.
      * intros Hsuc. destruct (Hyes Hsuc) as (r0 & Hr0 & Hc0 & Hb0 & Hall).
        exists r0.
        split; [ lia | ]. split; [ exact Hc0 | ]. split; [ exact Hb0 | ].
        intros r' g' e' Hr' Hc'.
        destruct (Nat.eq_dec r' n) as [->|Hne]; [ congruence | ].
        assert (Hr'' : (r' < n)%nat) by lia.
        apply (Hall r' g' e' Hr'' Hc').
      * intros Hsuc. destruct (Hno Hsuc) as (Hg0 & Hm & Hall).
        split; [ exact Hg0 | ]. split; [ exact Hm | ].
        intros r' g' e' Hr' Hc'.
        destruct (Nat.eq_dec r' n) as [->|Hne]; [ congruence | ].
        assert (Hr'' : (r' < n)%nat) by lia.
        apply (Hall r' g' e' Hr'' Hc').
Qed.

(** A row that passes each test in turn is a candidate. *)
Lemma rowCandidate_survives (P : PinholeProjection D) obs tgt r
    (gamma : R) (pose : T) (n : nat) (err : R) :
  let corners := cornerRows P obs r (GridTarget.cols tgt) in
  let C := solveZ corners in
  let t := square (v4_0 C) + square (v4_1 C) + v4_2 C * v4_3 C in
  let nx := v4_0 C * sqrt (1 / t) in
  let ny := v4_1 C * sqrt (1 / t) in
  (3 < length corners)%nat ->
  0 <= t ->
  hypot nx ny <= 0.95 ->
  gamma = Rabs (v4_2 C * sqrt (1 / t) / sqrt (1 - square nx - square ny)) ->
  estimateTransformation (setFocal P gamma) obs = Some pose ->
  computeReprojectionError (setFocal P gamma) obs tgt pose = (n, err) ->
  (3 < n)%nat ->
  rowCandidate P obs tgt r = Some (gamma, err / INR n).
Proof.
  intros corners C t nx ny Hcount Ht Hrad Hgamma Hpose Herr Hn.
  unfold rowCandidate, MIN_CORNERS. cbv zeta.
  fold corners. fold C. fold t. fold nx. fold ny.
  apply Nat.ltb_lt in Hcount. rewrite Hcount.
  apply ltb_false_iff in Ht. rewrite Ht.
  apply gtb_false_iff in Hrad. rewrite Hrad.
  rewrite <- Hgamma, Hpose, Herr.
  apply Nat.ltb_lt in Hn. rewrite Hn. reflexivity.
Qed.

(** Every valid pixel back-projects in front of the camera and is kept. *)
Lemma keepBackProjected_all_valid (P : PinholeProjection D) Ms :
  Forall (fun k => isValid P k = true) Ms ->
  forall Ps, length Ps = length Ms ->
  length (keepBackProjected P Ms Ps) = length Ms.
Proof.
  induction 1 as [|k Ms Hk HMs IH]; intros Ps Hlen.
  - destruct Ps; reflexivity.
  - destruct Ps as [|q Ps]; [ discriminate | ].
    simpl. rewrite Hk. simpl.
    replace (gtb 1 0) with true by (symmetry; apply gtb_true_iff; lra).
    simpl. f_equal. apply IH. simpl in Hlen. lia.
Qed.

Lemma estimateTransformation_succeeds (P : PinholeProjection D) obs :
  Forall (fun k => isValid P k = true) (getCornersImageFrame obs) ->
  length (getCornersTargetFrame obs) = length (getCornersImageFrame obs) ->
  (4 <= length (getCornersImageFrame obs))%nat ->
  exists pose, estimateTransformation P obs = Some pose.
Proof.
  intros Hvalid Hlen Hfour. unfold estimateTransformation. cbv zeta.
  rewrite length_map, (keepBackProjected_all_valid P _ Hvalid _ Hlen).
  destruct (length (getCornersImageFrame obs) <? 4)%nat eqn:E.
  - apply Nat.ltb_lt in E. lia.
  - eexists. reflexivity.
Qed.

(** When every target point reprojects exactly onto its observed corner,
    all points count and the summed error is zero. *)
Lemma computeReprojectionError_exact (P : PinholeProjection D) obs tgt pose :
  (forall i, (i < GridTarget.size tgt)%nat ->
     exists y, imagePoint obs i = Some y /\
               euclideanToKeypoint P
                 (transform (inverse pose) (GridTarget.point tgt i)) = (true, y)) ->
  computeReprojectionError P obs tgt pose = (GridTarget.size tgt, 0).
Proof.
  unfold computeReprojectionError. cbv zeta.
  generalize (GridTarget.size tgt) as n.
  induction n as [|n IH]; intros Hall; [ reflexivity | ].
  rewrite seq_S, fold_left_app, IH by (intros i Hi; apply Hall; lia).
  cbn [fold_left Nat.add].
  destruct (Hall n (Nat.lt_succ_diag_r n)) as (y & Hy & Hproj).
  rewrite Hy, Hproj.
  f_equal. unfold dist2, square.
  replace (0 + sqrt ((v2_0 y - v2_0 y) * (v2_0 y - v2_0 y)
                     + (v2_1 y - v2_1 y) * (v2_1 y - v2_1 y)))
    with (sqrt 0); [ apply sqrt_0 | ].
  rewrite Rplus_0_l. f_equal. ring.
Qed.

Lemma DBL_MAX_pos : 0 < DBL_MAX.
Proof.
  unfold DBL_MAX. apply Rmult_lt_0_compat.
  - assert (Hinv : / 2 ^ 52 <= / 2 ^ 0).
    { apply Rinv_le_contravar; [ simpl; lra | ].
      apply Rle_pow; [ lra | apply Nat.le_0_l ]. }
    simpl (2 ^ 0) in Hinv. lra.
  - apply pow_lt; lra.
Qed.

(** The projection the scan starts from is step 1 of the design
    document. *)
Lemma centredProjection_code (P : PinholeProjection D) obs :
  mkPinholeProjection (_fu P) (_fv P)
    ((IZR (imCols obs) - 1.0) / 2.0) ((IZR (imRows obs) - 1.0) / 2.0)
    (imCols obs) (imRows obs)
    (_recip_fu P) (_recip_fv P) (_fu_over_fv P)
    (clear (_distortion P))
  = centredProjection P obs.
Proof. unfold centredProjection. f_equal; lra. Qed.

Lemma initializeIntrinsics_with_target (P : PinholeProjection D) obs others tgt :
  target obs = Some tgt ->
  exists log0,
    initializeIntrinsics P (obs :: others)
    = let s := scanned (centredProjection P obs) obs tgt log0
                 (GridTarget.rows tgt) in
      Some (success s, setFocal (proj s) (gamma0 s), debugLog s).
Proof.
  intros Htgt. unfold initializeIntrinsics. rewrite Htgt.
  rewrite centredProjection_code.
  eexists. reflexivity.
Qed.

(** C6.  Without a target object the call returns false.  Otherwise it
    returns true exactly when some grid row survives every skip condition
    with a mean reprojection error below the initial bound (so that a best
    candidate is recorded), and then [fu] and [fv] are both the focal
    length of the row with the lowest mean error, the first such row in
    case of a tie. *)
Theorem initializeIntrinsics_best_row (P : PinholeProjection D)
    (obs : GridCalibrationTargetObservation)
    (others : list GridCalibrationTargetObservation) :
  match target obs with
  | None =>
    exists log, initializeIntrinsics P (obs :: others) = Some (false, P, log)
  | Some tgt =>
    let cand := rowCandidate (centredProjection P obs) obs tgt in
    exists b P' log,
      initializeIntrinsics P (obs :: others) = Some (b, P', log) /\
      (b = true <->
       exists r g e,
         (r < GridTarget.rows tgt)%nat /\ cand r = Some (g, e) /\ e < DBL_MAX) /\
      (b = true ->
       exists r g e,
         bestRow cand (GridTarget.rows tgt) r g e /\ _fu P' = g /\ _fv P' = g)
  end.
Proof.
  destruct (target obs) as [tgt|] eqn:Htgt.
  - destruct (initializeIntrinsics_with_target P obs others tgt Htgt)
      as [log0 Hrun].
    cbv zeta in Hrun |- *.
    destruct (scanned_invariant (centredProjection P obs) obs tgt log0
                (GridTarget.rows tgt)) as (_ & Hyes & Hno).
    cbv zeta in Hyes, Hno.
    set (s := scanned (centredProjection P obs) obs tgt log0
                (GridTarget.rows tgt)) in *.
    exists (success s), (setFocal (proj s) (gamma0 s)), (debugLog s).
    split; [ exact Hrun | ].
    split; [ split | ].
    + intros Hs. destruct (Hyes Hs) as (r & Hr & Hc & Hb & _).
      exists r, (gamma0 s), (minReprojErr s). auto.
    + intros (r & g & e & Hr & Hc & He).
      destruct (success s) eqn:Hs; [ reflexivity | ].
      destruct (Hno eq_refl) as (_ & _ & Hall).
      pose proof (Hall r g e Hr Hc). lra.
    + intros Hs. destruct (Hyes Hs) as (r & Hbest).
      exists r, (gamma0 s), (minReprojErr s).
      split; [ exact Hbest | split; reflexivity ].
  - unfold initializeIntrinsics. rewrite Htgt. eexists. reflexivity.
Qed.

(** When no row records, the focal lengths are left at the initial value
    of [gamma0]. *)
Lemma initializeIntrinsics_failure_focal (P P' : PinholeProjection D)
    obs others tgt log :
  target obs = Some tgt ->
  initializeIntrinsics P (obs :: others) = Some (false, P', log) ->
  _fu P' = 0 /\ _fv P' = 0.
Proof.
  intros Htgt Hrun.
  destruct (initializeIntrinsics_with_target P obs others tgt Htgt)
    as [log0 Hrun'].
  rewrite Hrun in Hrun'. cbv zeta in Hrun'.
  injection Hrun' as Hs HP _.
  destruct (scanned_invariant (centredProjection P obs) obs tgt log0
              (GridTarget.rows tgt)) as (_ & _ & Hno).
  cbv zeta in Hno. destruct (Hno (eq_sym Hs)) as (Hg & _ & _).
  rewrite HP, Hg. simpl. auto.
Qed.

End InitializerProperties.

(* ================================================================== *)
(** * A grid row with exactly three valid corners *)

(** C3.  On the observation whose only row has exactly three valid
    corners, the row is skipped for its corner count: the call logs
    "only had 3 corners. Minimum: 3", fits no line and returns false. *)
Theorem row_with_three_corners_skipped :
  length (cornerRows (centredProjection getTestProjection threeCornerObservation)
            threeCornerObservation 0 5) = 3%nat /\
  (forall s : ScanState unit,
      rowIteration (T := unit) threeCornerObservation threeCornerTarget s 0
      = logged s (SkippingTooFewCorners 0 3 MIN_CORNERS)) /\
  exists P',
    initializeIntrinsics (T := unit) getTestProjection [threeCornerObservation]
    = Some (false, P', [SkippingTooFewCorners 0 3 MIN_CORNERS]).
Proof.
  split; [ reflexivity | ].
  split.
  - intros s. reflexivity.
  - eexists. reflexivity.
Qed.

(* ================================================================== *)
(** * Intersection of two circles *)

Section Circles.

Variables x1 y1 r1 x2 y2 r2 : R.

(** The three cases of the construction: no point when the circles are
    disjoint ([d > r1 + r2]) or nested ([d < |r1 - r2|]); otherwise the
    foot point [(x3, y3)] of the chord when the half-height [h] is below
    [1e-10], and the two end points of the chord when it is not.  Only in
    the last case is the address of [ipts] returned. *)
Lemma intersectCircles_cases :
  let d := chordDistance x1 y1 x2 y2 in
  let a := chordOffset r1 r2 d in
  let h := chordHalfHeight r1 a in
  let x3 := x1 + a * (x2 - x1) / d in
  let y3 := y1 + a * (y2 - y1) / d in
  (d > r1 + r2 \/ d < Rabs (r1 - r2) ->
   PinholeHelpers.intersectCircles x1 y1 r1 x2 y2 r2
   = PinholeHelpers.Vector []) /\
  (d <= r1 + r2 -> Rabs (r1 - r2) <= d -> h < 1e-10 ->
   PinholeHelpers.intersectCircles x1 y1 r1 x2 y2 r2
   = PinholeHelpers.Vector [Vec2 x3 y3]) /\
  (d <= r1 + r2 -> Rabs (r1 - r2) <= d -> 1e-10 <= h ->
   PinholeHelpers.intersectCircles x1 y1 r1 x2 y2 r2
   = PinholeHelpers.AddressOfLocal
       [Vec2 (x3 + h * (y2 - y1) / d) (y3 - h * (x2 - x1) / d);
        Vec2 (x3 - h * (y2 - y1) / d) (y3 + h * (x2 - x1) / d)]).
Proof.
  intros d a h x3 y3.
  unfold PinholeHelpers.intersectCircles.
  change (hypot (x1 - x2) (y1 - y2)) with d. cbv zeta.
  change ((square r1 - square r2 + square d) / (2 * d)) with a.
  change (sqrt (square r1 - square a)) with h.
  fold x3. fold y3.
  split; [ | split ].
  - intros [Hdis|Hnest].
    + apply gtb_true_iff in Hdis. rewrite Hdis. reflexivity.
    + destruct (gtb d (r1 + r2)); [ reflexivity | ].
      apply ltb_true_iff in Hnest. rewrite Hnest. reflexivity.
  - intros H1 H2 H3.
    apply gtb_false_iff in H1. apply ltb_false_iff in H2.
    apply ltb_true_iff in H3.
    rewrite H1, H2, H3. reflexivity.
  - intros H1 H2 H3.
    apply gtb_false_iff in H1. apply ltb_false_iff in H2.
    apply ltb_false_iff in H3.
    rewrite H1, H2, H3. reflexivity.
Qed.

(** X20.  In the two-point case with distinct centres, both points that
    the construction puts into [ipts] lie on both circles. *)
Lemma intersectCircles_on_both_circles (p : Vector2d) :
  let d := chordDistance x1 y1 x2 y2 in
  let h := chordHalfHeight r1 (chordOffset r1 r2 d) in
  0 < d -> d <= r1 + r2 -> Rabs (r1 - r2) <= d -> 1e-10 <= h ->
  In p (PinholeHelpers.contents
          (PinholeHelpers.intersectCircles x1 y1 r1 x2 y2 r2)) ->
  sqdist (v2_0 p) (v2_1 p) x1 y1 = square r1 /\
  sqdist (v2_0 p) (v2_1 p) x2 y2 = square r2.
Proof.
  intros d h Hd H1 H2 Hh Hin.
  destruct intersectCircles_cases as (_ & _ & Htwo).
  rewrite (Htwo H1 H2 Hh) in Hin. cbn [PinholeHelpers.contents] in Hin.
  fold d in Hin. set (a := chordOffset r1 r2 d) in *. fold h in Hin.
  assert (Hdd : d * d = square (x1 - x2) + square (y1 - y2)).
  { unfold d, chordDistance, hypot. apply sqrt_sqrt. unfold square.
    pose proof (Rle_0_sqr (x1 - x2)) as Hsx.
    pose proof (Rle_0_sqr (y1 - y2)) as Hsy.
    unfold Rsqr in Hsx, Hsy. lra. }
  assert (Hhh : h * h = square r1 - square a).
  { unfold h, chordHalfHeight. apply sqrt_sqrt.
    destruct (Rle_lt_dec 0 (square r1 - square a)) as [Hge|Hneg];
      [ exact Hge | ].
    exfalso. unfold h, chordHalfHeight in Hh.
    rewrite sqrt_neg_0 in Hh by lra. lra. }
  assert (Ha : 2 * d * a = square r1 - square r2 + square d).
  { unfold a, chordOffset. field. lra. }
  set (u := (x2 - x1) / d). set (v := (y2 - y1) / d).
  assert (Hu : x2 - x1 = d * u) by (unfold u; field; lra).
  assert (Hv : y2 - y1 = d * v) by (unfold v; field; lra).
  assert (Huv : u * u + v * v = 1).
  { assert (E : d * d * (u * u + v * v) = d * d).
    { rewrite Hdd at 2. unfold square.
      replace (x1 - x2) with (- (d * u)) by lra.
      replace (y1 - y2) with (- (d * v)) by lra. ring. }
    assert (Hd2 : d * d <> 0) by nra.
    apply (Rmult_eq_reg_l (d * d)); [ lra | exact Hd2 ]. }
  assert (Hx3 : x1 + a * (x2 - x1) / d = x1 + a * u) by (unfold u; field; lra).
  assert (Hy3 : y1 + a * (y2 - y1) / d = y1 + a * v) by (unfold v; field; lra).
  unfold square in *.
  destruct Hin as [<-|[<-|[]]]; unfold sqdist, square; simpl;
    replace (h * (y2 - y1) / d) with (h * v) by (unfold v; field; lra);
    replace (h * (x2 - x1) / d) with (h * u) by (unfold u; field; lra);
    rewrite Hx3, Hy3.
  - split.
    + replace (x1 + a * u + h * v - x1) with (a * u + h * v) by ring.
      replace (y1 + a * v - h * u - y1) with (a * v - h * u) by ring.
      transitivity ((a * a + h * h) * (u * u + v * v)); [ ring | ].
      rewrite Huv, Hhh. ring.
    + replace (x1 + a * u + h * v - x2) with ((a - d) * u + h * v) by lra.
      replace (y1 + a * v - h * u - y2) with ((a - d) * v - h * u) by lra.
      transitivity (((a - d) * (a - d) + h * h) * (u * u + v * v)); [ ring | ].
      rewrite Huv, Hhh. lra.
  - split.
    + replace (x1 + a * u - h * v - x1) with (a * u - h * v) by ring.
      replace (y1 + a * v + h * u - y1) with (a * v + h * u) by ring.
      transitivity ((a * a + h * h) * (u * u + v * v)); [ ring | ].
      rewrite Huv, Hhh. ring.
    + replace (x1 + a * u - h * v - x2) with ((a - d) * u - h * v) by lra.
      replace (y1 + a * v + h * u - y2) with ((a - d) * v + h * u) by lra.
      transitivity (((a - d) * (a - d) + h * h) * (u * u + v * v)); [ ring | ].
      rewrite Huv, Hhh. lra.
Qed.

End Circles.

(* ================================================================== *)
(** * Instances on the test projection *)

Lemma isValid_exclusive_upper_bound_witness :
  isValid getTestProjection (Vec2 0 0) = true /\
  isValid getTestProjection (Vec2 (640 - 1) (480 - 1)) = true /\
  isValid getTestProjection (Vec2 320 240) = true.
Proof.
  destruct (isValid_exclusive_upper_bound getTestProjection)
    as (_ & Hcorner & Hcentre & _).
  destruct Hcorner as [H0 H1]; [ simpl; lia | simpl; lia | ].
  split; [ exact H0 | split; [ exact H1 | ] ].
  apply Hcentre; simpl; lra.
Defined.

Lemma euclideanToKeypoint_spec_witness :
  v3_2 (Vec3 0 0 1) <> 0 /\
  snd (euclideanToKeypoint getTestProjection (Vec3 0 0 1))
  = Vec2 (400 * (0 / 1) + 320) (400 * (0 / 1) + 240).
Proof.
  assert (Hz : v3_2 (Vec3 0 0 1) <> 0) by (simpl; lra).
  split; [ exact Hz | ].
  exact (proj1 (euclideanToKeypoint_spec getTestProjection (Vec3 0 0 1) Hz)).
Defined.

(* ================================================================== *)
(** * A run of the initialiser that succeeds *)

Lemma fourCornerPixel_valid (fu : R) (i : nat) :
  (i < 4)%nat ->
  isValid (setFocal (centredProjection getTestProjection fourCornerObservation) fu)
    (fourCornerPixel i) = true.
Proof.
  intros Hi. apply isValid_true_iff.
  assert (Hb : 0 <= INR i <= 3).
  { split; [ apply pos_INR | ].
    replace 3 with (INR 3) by (simpl; lra). apply le_INR; lia. }
  unfold fourCornerPixel, setFocal, updateTemporaries, centredProjection.
  cbn [v2_0 v2_1 _ru _rv imCols imRows fourCornerObservation].
  lra.
Qed.

Lemma fourCorner_reprojects (i : nat) :
  (i < 4)%nat ->
  euclideanToKeypoint
    (setFocal (centredProjection getTestProjection fourCornerObservation) 1)
    (Vec3 (INR i) 0 1)
  = (true, fourCornerPixel i).
Proof.
  intros Hi.
  unfold euclideanToKeypoint. cbv zeta.
  assert (Hk : Vec2
                 (_fu (setFocal (centredProjection getTestProjection
                                   fourCornerObservation) 1)
                  * v2_0 (distort (_distortion (setFocal (centredProjection
                            getTestProjection fourCornerObservation) 1))
                            (Vec2 (v3_0 (Vec3 (INR i) 0 1)
                                   * (1 / v3_2 (Vec3 (INR i) 0 1)))
                                  (v3_1 (Vec3 (INR i) 0 1)
                                   * (1 / v3_2 (Vec3 (INR i) 0 1)))))
                  + _cu (setFocal (centredProjection getTestProjection
                                     fourCornerObservation) 1))
                 (_fv (setFocal (centredProjection getTestProjection
                                   fourCornerObservation) 1)
                  * v2_1 (distort (_distortion (setFocal (centredProjection
                            getTestProjection fourCornerObservation) 1))
                            (Vec2 (v3_0 (Vec3 (INR i) 0 1)
                                   * (1 / v3_2 (Vec3 (INR i) 0 1)))
                                  (v3_1 (Vec3 (INR i) 0 1)
                                   * (1 / v3_2 (Vec3 (INR i) 0 1)))))
                  + _cv (setFocal (centredProjection getTestProjection
                                     fourCornerObservation) 1))
               = fourCornerPixel i).
  { unfold fourCornerPixel, setFocal, updateTemporaries, centredProjection.
    cbn [v2_0 v2_1 v3_0 v3_1 v3_2 _fu _fv _cu _cv _distortion distort
         NoDistortion imCols imRows fourCornerObservation].
    f_equal; lra. }
  rewrite Hk, (fourCornerPixel_valid 1 i Hi).
  cbn [v3_2]. replace (gtb 1 0) with true by (symmetry; apply gtb_true_iff; lra).
  reflexivity.
Qed.

Lemma fourCorner_candidate :
  rowCandidate (T := unit)
    (centredProjection getTestProjection fourCornerObservation)
    fourCornerObservation fourCornerTarget 0
  = Some (1, 0 / INR 4).
Proof.
  set (P1 := centredProjection getTestProjection fourCornerObservation).
  destruct (estimateTransformation_succeeds (T := unit) (setFocal P1 1)
              fourCornerObservation) as [pose Hpose].
  { cbn [getCornersImageFrame fourCornerObservation map seq].
    repeat (apply Forall_cons; [ apply fourCornerPixel_valid; lia | ]).
    apply Forall_nil. }
  { reflexivity. }
  { cbn [getCornersImageFrame fourCornerObservation map seq length]. lia. }
  assert (Ht : square 0 + square 0 + 1 * 1 = 1) by (unfold square; ring).
  apply (rowCandidate_survives P1 fourCornerObservation fourCornerTarget 0
           1 pose 4 0).
  - cbn. lia.
  - cbn [solveZ fixedSolvers v4_0 v4_1 v4_2 v4_3]. rewrite Ht. lra.
  - cbn [solveZ fixedSolvers v4_0 v4_1 v4_2 v4_3].
    unfold hypot, square. rewrite !Rmult_0_l, Rplus_0_l, sqrt_0. lra.
  - cbn [solveZ fixedSolvers v4_0 v4_1 v4_2 v4_3]. rewrite Ht.
    replace (1 / 1) with 1 by field. rewrite sqrt_1.
    replace (1 - square (0 * 1) - square (0 * 1)) with 1
      by (unfold square; ring).
    rewrite sqrt_1. replace (1 * 1 / 1) with 1 by field.
    symmetry. apply Rabs_R1.
  - exact Hpose.
  - change 4%nat with (GridTarget.size fourCornerTarget).
    apply computeReprojectionError_exact.
    intros i Hi. cbn [GridTarget.size fourCornerTarget] in Hi.
    exists (fourCornerPixel i). split.
    + cbn [imagePoint fourCornerObservation].
      apply Nat.ltb_lt in Hi. rewrite Hi. reflexivity.
    + cbn [transform inverse fixedSolvers GridTarget.point fourCornerTarget].
      apply fourCorner_reprojects. exact Hi.
  - lia.
Qed.

Lemma initializeIntrinsics_best_row_witness :
  exists P' log,
    initializeIntrinsics (T := unit) getTestProjection [fourCornerObservation]
    = Some (true, P', log) /\
    _fu P' = 1 /\ _fv P' = 1.
Proof.
  pose proof (initializeIntrinsics_best_row (T := unit) getTestProjection
                fourCornerObservation []) as Hthm.
  cbn [target fourCornerObservation] in Hthm. cbv zeta in Hthm.
  destruct Hthm as (b & P' & log & Hrun & Hiff & Hbest).
  assert (Hb : b = true).
  { apply Hiff. exists 0%nat, 1, (0 / INR 4).
    split; [ cbn; lia | ].
    split; [ exact fourCorner_candidate | ].
    unfold Rdiv. rewrite Rmult_0_l. apply DBL_MAX_pos. }
  subst b. exists P', log.
  split; [ exact Hrun | ].
  destruct (Hbest eq_refl) as (r & g & e & (Hr & Hc & _) & Hfu & Hfv).
  cbn [GridTarget.rows fourCornerTarget] in Hr.
  assert (Hr0 : r = 0%nat) by lia. subst r.
  rewrite fourCorner_candidate in Hc. injection Hc as Hg _.
  subst g. split; assumption.
Defined.

(* ================================================================== *)
(** * Further instances *)

Lemma homogeneousToKeypoint_sign_handling_witness :
  specificSizeOrDynamic emptyMatrixXd 2 4 /\
  homogeneousToKeypoint getTestProjection (Vec4 0 0 (-1) (-1))
  = euclideanToKeypoint getTestProjection (neg3 (head3 (Vec4 0 0 (-1) (-1)))) /\
  exists J,
    homogeneousToKeypointJ getTestProjection (Vec4 0 0 (-1) (-1)) emptyMatrixXd
    = Some (Ok (fst (euclideanToKeypoint getTestProjection
                       (head3 (Vec4 0 0 (-1) (-1)))),
                snd (euclideanToKeypoint getTestProjection
                       (head3 (Vec4 0 0 (-1) (-1)))), J)).
Proof.
  assert (Hsz : specificSizeOrDynamic emptyMatrixXd 2 4).
  { unfold specificSizeOrDynamic; simpl; discriminate. }
  destruct (homogeneousToKeypoint_sign_handling getTestProjection
              (Vec4 0 0 (-1) (-1)) emptyMatrixXd Hsz)
    as (Hneg & _ & J & Je & HJ & _).
  split; [ exact Hsz | ].
  split; [ apply Hneg; simpl; lra | ].
  exists J. exact HJ.
Defined.

Lemma keypointToHomogeneousJ_out_of_range_witness :
  specificSizeOrDynamic emptyMatrixXd 4 2 /\
  specificSizeOrDynamic (fixedMatrix 4 2) 4 2 /\
  keypointToHomogeneousJ getTestProjection (Vec2 0 0)
    (fixedMatrix 4 1) emptyMatrixXd = AssertionFailed /\
  keypointToHomogeneousJ getTestProjection (Vec2 0 0)
    (fixedMatrix 4 1) (fixedMatrix 4 2) = AssertionFailed.
Proof.
  assert (Hdyn : specificSizeOrDynamic emptyMatrixXd 4 2).
  { unfold specificSizeOrDynamic; simpl; discriminate. }
  assert (Hfix : specificSizeOrDynamic (fixedMatrix 4 2) 4 2).
  { unfold specificSizeOrDynamic; simpl; auto. }
  split; [ exact Hdyn | ].
  split; [ exact Hfix | ].
  split.
  - exact (keypointToHomogeneousJ_out_of_range getTestProjection (Vec2 0 0)
             (fixedMatrix 4 1) emptyMatrixXd Hdyn).
  - exact (keypointToHomogeneousJ_out_of_range getTestProjection (Vec2 0 0)
             (fixedMatrix 4 1) (fixedMatrix 4 2) Hfix).
Defined.

Lemma caches_never_stale_witness :
  cachesFresh getTestProjection /\
  cachesFresh (update getTestProjection (1, 1, 0, 0)) /\
  (exists P',
      initializeIntrinsics (T := unit) getTestProjection [threeCornerObservation]
      = Some (false, P', [SkippingTooFewCorners 0 3 MIN_CORNERS]) /\
      cachesFresh P') /\
  (exists P',
      initializeIntrinsics (T := unit) getTestProjection
        [observationWithoutTarget]
      = Some (false, P', [NoTargetObject]) /\
      cachesFresh P').
Proof.
  assert (Hfresh : cachesFresh getTestProjection).
  { unfold cachesFresh; simpl; auto. }
  destruct (@caches_never_stale unit _ unit _)
    as (Hupdate & _ & _ & _ & Hinit).
  split; [ exact Hfresh | ].
  split; [ apply Hupdate | ].
  split.
  - eexists. split; [ reflexivity | ].
    eapply (Hinit getTestProjection _ [threeCornerObservation]);
      [ exact Hfresh | reflexivity ].
  - eexists. split; [ reflexivity | ].
    eapply (Hinit getTestProjection _ [observationWithoutTarget]);
      [ exact Hfresh | reflexivity ].
Defined.

Lemma chord_example_distance : hypot (0 - 6) (0 - 0) = 6.
Proof.
  unfold hypot, square.
  replace ((0 - 6) * (0 - 6) + (0 - 0) * (0 - 0)) with (6 * 6) by ring.
  apply sqrt_square. lra.
Qed.

Lemma chord_example_height : sqrt (square 5 - square 3) = 4.
Proof.
  unfold square. replace (5 * 5 - 3 * 3) with (4 * 4) by ring.
  apply sqrt_square. lra.
Qed.

(** C8.  For the circles of radius 5 about [(0, 0)] and [(6, 0)] the
    construction finds the two points [(3, -4)] and [(3, 4)], but the call
    returns the address of the local vector that holds them: the caller can
    read no point. *)
Theorem intersectCircles_two_points_dangling :
  PinholeHelpers.intersectCircles 0 0 5 6 0 5
  = PinholeHelpers.AddressOfLocal [Vec2 3 (-4); Vec2 3 4] /\
  PinholeHelpers.points (PinholeHelpers.intersectCircles 0 0 5 6 0 5) = None.
Proof.
  pose proof (intersectCircles_cases 0 0 5 6 0 5) as Hc.
  cbv zeta in Hc. unfold chordHalfHeight, chordOffset, chordDistance in Hc.
  assert (Ha : (square 5 - square 5 + square 6) / (2 * 6) = 3)
    by (unfold square; field).
  rewrite !chord_example_distance, !Ha, !chord_example_height in Hc.
  destruct Hc as (_ & _ & Htwo).
  assert (E : PinholeHelpers.intersectCircles 0 0 5 6 0 5
              = PinholeHelpers.AddressOfLocal [Vec2 3 (-4); Vec2 3 4]).
  { rewrite Htwo.
    - f_equal. f_equal; [ | f_equal ]; f_equal; field.
    - lra.
    - replace (5 - 5) with 0 by ring. rewrite Rabs_R0. lra.
    - lra. }
  rewrite E. split; reflexivity.
Qed.

(** The tangent circles of radius 1 about [(0, 0)] and [(2, 0)] touch in
    [(1, 0)], which is returned. *)
Lemma intersectCircles_tangent_example :
  PinholeHelpers.points (PinholeHelpers.intersectCircles 0 0 1 2 0 1)
  = Some [Vec2 1 0].
Proof.
  pose proof (intersectCircles_cases 0 0 1 2 0 1) as Hc.
  cbv zeta in Hc. unfold chordHalfHeight, chordOffset, chordDistance in Hc.
  assert (Hd : hypot (0 - 2) (0 - 0) = 2).
  { unfold hypot, square.
    replace ((0 - 2) * (0 - 2) + (0 - 0) * (0 - 0)) with (2 * 2) by ring.
    apply sqrt_square. lra. }
  assert (Ha : (square 1 - square 1 + square 2) / (2 * 2) = 1)
    by (unfold square; field).
  assert (Hh : sqrt (square 1 - square 1) = 0).
  { unfold square. replace (1 * 1 - 1 * 1) with 0 by ring. apply sqrt_0. }
  rewrite !Hd, !Ha, !Hh in Hc.
  destruct Hc as (_ & Hone & _).
  rewrite Hone.
  - simpl. do 2 f_equal. f_equal; field.
  - lra.
  - replace (1 - 1) with 0 by ring. rewrite Rabs_R0. lra.
  - lra.
Qed.

(** Two circles far apart have no common point. *)
Lemma intersectCircles_disjoint_example :
  PinholeHelpers.points (PinholeHelpers.intersectCircles 0 0 1 6 0 1)
  = Some [].
Proof.
  pose proof (intersectCircles_cases 0 0 1 6 0 1) as Hc.
  cbv zeta in Hc. unfold chordHalfHeight, chordOffset, chordDistance in Hc.
  rewrite !chord_example_distance in Hc.
  destruct Hc as (Hnone & _).
  rewrite Hnone; [ reflexivity | left; lra ].
Qed.

(* ================================================================== *)
(** * Further properties of projection and back-projection *)



Lemma norm3_pos_z1 (x y : R) : 0 < norm3 (Vec3 x y 1).
Proof.
  unfold norm3, square; simpl. apply sqrt_lt_R0.
  pose proof (Rle_0_sqr x) as Hx. pose proof (Rle_0_sqr y) as Hy.
  unfold Rsqr in Hx, Hy. lra.
Qed.

Section ProjectionExtras.

Context {D : Type} `{Distortion D}.

(** Scaling a point by a positive factor changes neither flag nor
    keypoint. *)
Lemma project_scaled (P : PinholeProjection D) (p : Vector3d) (s : R) :
  0 < s -> euclideanToKeypoint P (scale3 s p) = euclideanToKeypoint P p.
Proof.
  intros Hs. unfold euclideanToKeypoint, scale3; simpl.
  assert (Hx : forall x, s * x * (1 / (s * v3_2 p)) = x * (1 / v3_2 p)).
  { intros x. unfold Rdiv. rewrite Rinv_mult, !Rmult_1_l.
    transitivity (s * / s * (x * / v3_2 p)); [ ring | ].
    rewrite Rinv_r by lra. ring. }
  rewrite !Hx.
  assert (Hg : gtb (s * v3_2 p) 0 = gtb (v3_2 p) 0).
  { destruct (gtb (v3_2 p) 0) eqn:E.
    - apply gtb_true_iff in E. apply gtb_true_iff. nra.
    - apply gtb_false_iff in E. apply gtb_false_iff. nra. }
  rewrite Hg. reflexivity.
Qed.

(** Back-projecting a keypoint and projecting the result gives the
    keypoint back, flagged with its own validity. *)
Lemma project_backProjected (P : PinholeProjection D) (k : Vector2d) :
  _fu P <> 0 -> _fv P <> 0 ->
  (forall q, distort (_distortion P) (undistort (_distortion P) q) = q) ->
  euclideanToKeypoint P (snd (keypointToEuclidean P k)) = (isValid P k, k).
Proof.
  intros Hfu Hfv Hinv.
  unfold keypointToEuclidean, euclideanToKeypoint; simpl.
  set (n := Vec2 ((v2_0 k - _cu P) / _fu P) ((v2_1 k - _cv P) / _fv P)).
  set (u := undistort (_distortion P) n).
  assert (Hu : Vec2 (v2_0 u * (1 / 1)) (v2_1 u * (1 / 1)) = u).
  { destruct u as [u0 u1]; simpl. f_equal; field. }
  rewrite Hu. unfold u. rewrite Hinv. unfold n; simpl.
  assert (Hk : Vec2 (_fu P * ((v2_0 k - _cu P) / _fu P) + _cu P)
                    (_fv P * ((v2_1 k - _cv P) / _fv P) + _cv P) = k).
  { destruct k as [k0 k1]; simpl. f_equal; field; assumption. }
  rewrite Hk.
  replace (gtb 1 0) with true by (symmetry; apply gtb_true_iff; lra).
  rewrite andb_true_r. reflexivity.
Qed.

(** X1.  The projection depends on the ray only: for every positive
    factor [s], the point [s * p] projects to the same keypoint as [p] and
    is visible exactly when [p] is. *)
Theorem euclideanToKeypoint_scale_invariant (P : PinholeProjection D)
    (p : Vector3d) (s : R) :
  0 < s ->
  snd (euclideanToKeypoint P (scale3 s p)) = snd (euclideanToKeypoint P p) /\
  isEuclideanVisible P (scale3 s p) = isEuclideanVisible P p.
Proof.
  intros Hs. unfold isEuclideanVisible.
  rewrite (project_scaled P p s Hs).
  destruct (euclideanToKeypoint P p) as [visible k]. split; reflexivity.
Qed.

(** X2.  When the focal lengths are not zero and [distort] undoes
    [undistort], projecting the back-projection of a keypoint returns that
    keypoint, and the point is visible exactly when the keypoint is
    valid. *)
Theorem keypointToEuclidean_round_trip (P : PinholeProjection D)
    (k : Vector2d) :
  _fu P <> 0 -> _fv P <> 0 ->
  (forall q, distort (_distortion P) (undistort (_distortion P) q) = q) ->
  snd (euclideanToKeypoint P (snd (keypointToEuclidean P k))) = k /\
  isEuclideanVisible P (snd (keypointToEuclidean P k)) = isValid P k /\
  fst (keypointToEuclidean P k) = isValid P k.
Proof.
  intros Hfu Hfv Hinv. unfold isEuclideanVisible.
  rewrite (project_backProjected P k Hfu Hfv Hinv).
  repeat split; reflexivity.
Qed.

(** X3.  For a draw strictly inside the square and a positive depth
    (given, or drawn when the argument is negative), the point that
    [createRandomVisiblePoint] returns is visible and projects to the
    random keypoint it was built from. *)
Theorem createRandomVisiblePoint_visible (P : PinholeProjection D)
    (r : Vector2d) (u depth : R) :
  (0 < _ru P)%Z -> (0 < _rv P)%Z ->
  _fu P <> 0 -> _fv P <> 0 ->
  (forall q, distort (_distortion P) (undistort (_distortion P) q) = q) ->
  Rabs (v2_0 r) < 1 -> Rabs (v2_1 r) < 1 ->
  0 < depth \/ (depth < 0 /\ 0 < u) ->
  euclideanToKeypoint P (createRandomVisiblePoint P r u depth)
  = (true, createRandomKeypoint P r).
Proof.
  intros Hru Hrv Hfu Hfv Hinv Hr0 Hr1 Hdepth.
  pose proof (createRandomKeypoint_interior P r Hru Hrv Hr0 Hr1) as Hvalid.
  pose proof (project_backProjected P (createRandomKeypoint P r) Hfu Hfv Hinv)
    as Hround.
  rewrite Hvalid in Hround.
  unfold createRandomVisiblePoint.
  destruct (keypointToEuclidean P (createRandomKeypoint P r)) as [flag p] eqn:Hp.
  simpl snd in Hround.
  assert (Hz : v3_2 p = 1).
  { unfold keypointToEuclidean in Hp. injection Hp as _ <-. reflexivity. }
  set (depth' := if ltb depth 0 then u * 100 else depth).
  assert (Hd : 0 < depth').
  { unfold depth'. destruct Hdepth as [Hpos|[Hneg Hu]].
    - replace (ltb depth 0) with false
        by (symmetry; apply ltb_false_iff; lra). exact Hpos.
    - replace (ltb depth 0) with true
        by (symmetry; apply ltb_true_iff; lra). lra. }
  assert (Hn : 0 < norm3 p).
  { destruct p as [x y z]. simpl in Hz. subst z. apply norm3_pos_z1. }
  cbv zeta. fold depth'. simpl v3_0. simpl v3_1. simpl v3_2.
  assert (Es : Vec3 (v3_0 p / norm3 p * depth') (v3_1 p / norm3 p * depth')
                    (v3_2 p / norm3 p * depth')
               = scale3 (depth' / norm3 p) p).
  { unfold scale3. f_equal; unfold Rdiv; ring. }
  rewrite Es, project_scaled; [ exact Hround | ].
  apply Rdiv_lt_0_compat; assumption.
Qed.

(** X4.  A homogeneous point with [w <> 0] and its negative are the same
    point: they project to the same keypoint with the same flag.  For a
    direction ([w = 0]) at most one of the two is visible. *)
Theorem homogeneousToKeypoint_negation (P : PinholeProjection D)
    (ph : Vector4d) :
  (v4_3 ph <> 0 ->
   homogeneousToKeypoint P (negate4 ph) = homogeneousToKeypoint P ph) /\
  (v4_3 ph = 0 ->
   isHomogeneousVisible P ph = true ->
   isHomogeneousVisible P (negate4 ph) = false).
Proof.
  assert (Hnn : neg3 (head3 (negate4 ph)) = head3 ph).
  { unfold neg3, head3, negate4; simpl. f_equal; ring. }
  split.
  - intros Hw. unfold homogeneousToKeypoint.
    change (v4_3 (negate4 ph)) with (- v4_3 ph).
    destruct (Rlt_dec (v4_3 ph) 0) as [Hneg|Hpos].
    + replace (ltb (v4_3 ph) 0) with true
        by (symmetry; apply ltb_true_iff; lra).
      replace (ltb (- v4_3 ph) 0) with false
        by (symmetry; apply ltb_false_iff; lra).
      reflexivity.
    + replace (ltb (v4_3 ph) 0) with false
        by (symmetry; apply ltb_false_iff; lra).
      replace (ltb (- v4_3 ph) 0) with true
        by (symmetry; apply ltb_true_iff; lra).
      rewrite Hnn. reflexivity.
  - intros Hw. unfold isHomogeneousVisible, homogeneousToKeypoint.
    change (v4_3 (negate4 ph)) with (- v4_3 ph). rewrite Hw.
    replace (ltb 0 0) with false by (symmetry; apply ltb_false_iff; lra).
    replace (ltb (- 0) 0) with false by (symmetry; apply ltb_false_iff; lra).
    unfold euclideanToKeypoint; simpl.
    rewrite andb_true_iff, gtb_true_iff. intros [_ Hz].
    apply andb_false_iff. right. apply gtb_false_iff. lra.
Qed.


(** X6.  Resampling the image by [scale] scales every projected keypoint
    by [scale]; for a scale other than zero the cached ratio [fu/fv] is
    unchanged. *)
Theorem resizeIntrinsics_scales_keypoints (P : PinholeProjection D)
    (scale : R) (p : Vector3d) :
  let k := snd (euclideanToKeypoint P p) in
  snd (euclideanToKeypoint (resizeIntrinsics P scale) p)
  = Vec2 (scale * v2_0 k) (scale * v2_1 k) /\
  (scale <> 0 ->
   _fu_over_fv (resizeIntrinsics P scale) = _fu P / _fv P).
Proof.
  split.
  - unfold euclideanToKeypoint, resizeIntrinsics, updateTemporaries; simpl.
    f_equal; ring.
  - intros Hs. unfold resizeIntrinsics, updateTemporaries; simpl.
    unfold Rdiv. rewrite Rinv_mult.
    transitivity (_fu P * / _fv P * (scale * / scale)); [ ring | ].
    rewrite Rinv_r by exact Hs. ring.
Qed.


(** X8.  [getParameters] reads back what [setParameters] stored;
    [update] is [setParameters] of the current parameters plus the
    increment; and storing the current parameters changes nothing when
    the caches are fresh. *)
Theorem parameters_round_trip (P : PinholeProjection D) (v : R * R * R * R) :
  getParameters (setParameters P v) = v /\
  update P v = setParameters P (addParameters (getParameters P) v) /\
  (cachesFresh P -> setParameters P (getParameters P) = P).
Proof.
  destruct v as [[[v0 v1] v2] v3].
  split; [ reflexivity | split ].
  - reflexivity.
  - intros (Hfu & Hfv & Hr).
    destruct P as [fu fv cu cv ru rv rfu rfv ratio d]; simpl in *.
    unfold setParameters, getParameters, updateTemporaries; simpl.
    rewrite Hfu, Hfv, Hr. reflexivity.
Qed.

(** X9.  Loading what [save] wrote, with a supported version, restores
    the six intrinsics and the distortion and recomputes the caches,
    whatever the object held before; an object with fresh caches is
    restored exactly.  A newer version is refused. *)
Theorem save_load_round_trip (maxVersion version : nat)
    (P Q : PinholeProjection D) :
  ((version <= maxVersion)%nat ->
   load maxVersion Q (save P) version = Some (updateTemporaries P)) /\
  ((version <= maxVersion)%nat -> cachesFresh P ->
   load maxVersion Q (save P) version = Some P) /\
  ((maxVersion < version)%nat ->
   load maxVersion Q (save P) version = None).
Proof.
  split; [ | split ].
  - intros Hv. unfold load. apply Nat.leb_le in Hv. rewrite Hv.
    reflexivity.
  - intros Hv (Hfu & Hfv & Hr). unfold load.
    apply Nat.leb_le in Hv. rewrite Hv.
    destruct P as [fu fv cu cv ru rv rfu rfv ratio d]; simpl in *.
    unfold updateTemporaries; simpl. rewrite Hfu, Hfv, Hr. reflexivity.
  - intros Hv. unfold load.
    destruct (version <=? maxVersion)%nat eqn:E; [ | reflexivity ].
    apply Nat.leb_le in E. lia.
Qed.


(** X11.  On a positive resolution the eight border pixels are all valid
    keypoints, so every call of [getBorderRays] to [keypointToHomogeneous]
    returns true, and each of the eight rays has [z = 1] and [w = 0]. *)
Theorem getBorderRays_valid (P : PinholeProjection D) :
  (0 < _ru P)%Z -> (0 < _rv P)%Z ->
  length (getBorderRays P) = 8%nat /\
  Forall (fun fr => fst fr = true /\ v4_2 (snd fr) = 1 /\ v4_3 (snd fr) = 0)
         (getBorderRays P).
Proof.
  intros Hru Hrv.
  assert (Hu : 1 <= IZR (_ru P)) by (apply IZR_le; lia).
  assert (Hv : 1 <= IZR (_rv P)) by (apply IZR_le; lia).
  split; [ reflexivity | ].
  unfold getBorderRays, borderKeypoints.
  repeat (apply Forall_cons || apply Forall_nil);
    unfold keypointToHomogeneous, keypointToEuclidean; simpl;
    (split; [ apply isValid_true_iff; simpl; lra | split; reflexivity ]).
Qed.

End ProjectionExtras.

(* ================================================================== *)
(** * The Jacobians as derivatives *)

Lemma derivable_pt_lim_value (f : R -> R) (x l l' : R) :
  derivable_pt_lim f x l -> l = l' -> derivable_pt_lim f x l'.
Proof. intros Hf <-. exact Hf. Qed.

Lemma derivable_pt_lim_affine (a c b x : R) :
  derivable_pt_lim (fun t => a * (t * c) + b) x (a * c).
Proof.
  apply derivable_pt_lim_ext
    with (f := (mult_real_fct a (id * fct_cte c) + fct_cte b)%F);
    [ intros t; reflexivity | ].
  eapply derivable_pt_lim_value.
  - apply derivable_pt_lim_plus.
    + apply derivable_pt_lim_scal. apply derivable_pt_lim_mult.
      * apply derivable_pt_lim_id.
      * apply derivable_pt_lim_const.
    + apply derivable_pt_lim_const.
  - unfold fct_cte, id. ring.
Qed.

Lemma derivable_pt_lim_constant (k x : R) :
  derivable_pt_lim (fun _ => k) x 0.
Proof. exact (derivable_pt_lim_const k x). Qed.

Lemma derivable_pt_lim_reciprocal (a c b z : R) :
  z <> 0 ->
  derivable_pt_lim (fun t => a * (c * (1 / t)) + b) z
    (- a * c * (1 / z * (1 / z))).
Proof.
  intros Hz.
  apply derivable_pt_lim_ext
    with (f := (mult_real_fct a (fct_cte c * (fct_cte 1 / id)) + fct_cte b)%F);
    [ intros t; reflexivity | ].
  eapply derivable_pt_lim_value.
  - apply derivable_pt_lim_plus.
    + apply derivable_pt_lim_scal. apply derivable_pt_lim_mult.
      * apply derivable_pt_lim_const.
      * apply derivable_pt_lim_div.
        -- apply derivable_pt_lim_const.
        -- apply derivable_pt_lim_id.
        -- exact Hz.
    + apply derivable_pt_lim_const.
  - unfold fct_cte, id, Rsqr. field. exact Hz.
Qed.


Section DerivativeExtras.

Context {D : Type} `{Distortion D}.

(** The projection when the distortion is the identity. *)
Lemma project_without_distortion (P : PinholeProjection D) (p : Vector3d) :
  (forall q, distortJ (_distortion P) q = (q, Mat2 1 0 0 1)) ->
  snd (euclideanToKeypoint P p)
  = Vec2 (_fu P * (v3_0 p * (1 / v3_2 p)) + _cu P)
         (_fv P * (v3_1 p * (1 / v3_2 p)) + _cv P).
Proof.
  intros Hid. unfold euclideanToKeypoint; simpl.
  rewrite <- distortJ_point, Hid. reflexivity.
Qed.


(** X12.  When the distortion is the identity (its Jacobian the unit
    matrix) and [z <> 0], the six entries that the Jacobian overload of
    [euclideanToKeypoint] writes are the partial derivatives of the two
    keypoint coordinates with respect to the three coordinates of the
    point. *)
Theorem euclideanToKeypointJ_is_derivative (P : PinholeProjection D)
    (x y z : R) :
  (forall q, distortJ (_distortion P) q = (q, Mat2 1 0 0 1)) ->
  z <> 0 ->
  exists visible k J,
    euclideanToKeypointJ P (Vec3 x y z) (fixedMatrix 2 3)
    = Ok (visible, k, J) /\
    derivable_pt_lim
      (fun t => v2_0 (snd (euclideanToKeypoint P (Vec3 t y z)))) x (coeff J 0 0) /\
    derivable_pt_lim
      (fun t => v2_0 (snd (euclideanToKeypoint P (Vec3 x t z)))) y (coeff J 0 1) /\
    derivable_pt_lim
      (fun t => v2_0 (snd (euclideanToKeypoint P (Vec3 x y t)))) z (coeff J 0 2) /\
    derivable_pt_lim
      (fun t => v2_1 (snd (euclideanToKeypoint P (Vec3 t y z)))) x (coeff J 1 0) /\
    derivable_pt_lim
      (fun t => v2_1 (snd (euclideanToKeypoint P (Vec3 x t z)))) y (coeff J 1 1) /\
    derivable_pt_lim
      (fun t => v2_1 (snd (euclideanToKeypoint P (Vec3 x y t)))) z (coeff J 1 2).
Proof.
  intros Hid Hz.
  do 3 eexists.
  split; [ unfold euclideanToKeypointJ; rewrite Hid; reflexivity | ].
  repeat split.
  - apply derivable_pt_lim_ext
      with (f := fun t => _fu P * (t * (1 / z)) + _cu P);
      [ intros t; rewrite project_without_distortion by exact Hid;
        reflexivity | ].
    eapply derivable_pt_lim_value;
      [ apply derivable_pt_lim_affine | simpl; ring ].
  - apply derivable_pt_lim_ext
      with (f := fun _ => _fu P * (x * (1 / z)) + _cu P);
      [ intros t; rewrite project_without_distortion by exact Hid;
        reflexivity | ].
    eapply derivable_pt_lim_value;
      [ apply derivable_pt_lim_constant | simpl; ring ].
  - apply derivable_pt_lim_ext
      with (f := fun t => _fu P * (x * (1 / t)) + _cu P);
      [ intros t; rewrite project_without_distortion by exact Hid;
        reflexivity | ].
    eapply derivable_pt_lim_value;
      [ apply derivable_pt_lim_reciprocal; exact Hz | simpl; ring ].
  - apply derivable_pt_lim_ext
      with (f := fun _ => _fv P * (y * (1 / z)) + _cv P);
      [ intros t; rewrite project_without_distortion by exact Hid;
        reflexivity | ].
    eapply derivable_pt_lim_value;
      [ apply derivable_pt_lim_constant | simpl; ring ].
  - apply derivable_pt_lim_ext
      with (f := fun t => _fv P * (t * (1 / z)) + _cv P);
      [ intros t; rewrite project_without_distortion by exact Hid;
        reflexivity | ].
    eapply derivable_pt_lim_value;
      [ apply derivable_pt_lim_affine | simpl; ring ].
  - apply derivable_pt_lim_ext
      with (f := fun t => _fv P * (y * (1 / t)) + _cv P);
      [ intros t; rewrite project_without_distortion by exact Hid;
        reflexivity | ].
    eapply derivable_pt_lim_value;
      [ apply derivable_pt_lim_reciprocal; exact Hz | simpl; ring ].
Qed.


End DerivativeExtras.

Section IntrinsicsJacobian.

Context {D : Type} `{Distortion D}.

(** The intrinsics Jacobian of a point: sizes and entries. *)
Lemma intrinsicsJacobian_entries (P : PinholeProjection D) (p : Vector3d)
    (outJi : Matrix) :
  specificSizeOrDynamic outJi 2 4 ->
  exists J,
    euclideanToKeypointIntrinsicsJacobian P p outJi = Ok J /\
    rows J = 2%nat /\ cols J = 4%nat /\
    forall fu fv cu cv,
      snd (euclideanToKeypoint
             (setParameters P (fu, fv, cu, cv)) p)
      = Vec2 (coeff J 0 0 * fu + coeff J 0 1 * fv
              + coeff J 0 2 * cu + coeff J 0 3 * cv)
             (coeff J 1 0 * fu + coeff J 1 1 * fv
              + coeff J 1 2 * cu + coeff J 1 3 * cv).
Proof.
  intros Hsz.
  destruct outJi as [fx r c co].
  unfold specificSizeOrDynamic in Hsz; simpl in Hsz.
  unfold euclideanToKeypointIntrinsicsJacobian, KeypointDimension, resize.
  simpl.
  destruct fx.
  - destruct (Hsz eq_refl) as [-> ->]. simpl.
    eexists. split; [ reflexivity | ].
    split; [ reflexivity | split; [ reflexivity | ] ].
    intros fu fv cu cv. unfold euclideanToKeypoint; simpl. f_equal; ring.
  - simpl. eexists. split; [ reflexivity | ].
    split; [ reflexivity | split; [ reflexivity | ] ].
    intros fu fv cu cv. unfold euclideanToKeypoint; simpl. f_equal; ring.
Qed.

(** X14.  The keypoint is linear in the intrinsics, and the matrix that
    [homogeneousToKeypointIntrinsicsJacobian] writes is the matrix of that
    map: for every choice of [(fu, fv, cu, cv)], the keypoint that
    [homogeneousToKeypoint] computes is the product of the 2x4 Jacobian
    with the parameter vector.  The Jacobian itself does not depend on the
    intrinsics of the object. *)
Theorem homogeneousToKeypointIntrinsicsJacobian_linear
    (P : PinholeProjection D) (ph : Vector4d) (outJi : Matrix) :
  specificSizeOrDynamic outJi 2 4 ->
  exists J,
    homogeneousToKeypointIntrinsicsJacobian P ph outJi = Ok J /\
    rows J = 2%nat /\ cols J = 4%nat /\
    (forall v, homogeneousToKeypointIntrinsicsJacobian
                 (setParameters P v) ph outJi = Ok J) /\
    forall fu fv cu cv,
      snd (homogeneousToKeypoint (setParameters P (fu, fv, cu, cv)) ph)
      = Vec2 (coeff J 0 0 * fu + coeff J 0 1 * fv
              + coeff J 0 2 * cu + coeff J 0 3 * cv)
             (coeff J 1 0 * fu + coeff J 1 1 * fv
              + coeff J 1 2 * cu + coeff J 1 3 * cv).
Proof.
  intros Hsz.
  unfold homogeneousToKeypointIntrinsicsJacobian, homogeneousToKeypoint.
  replace (ltb (v4_3 ph) 0.0) with (ltb (v4_3 ph) 0)
    by (f_equal; lra).
  destruct (ltb (v4_3 ph) 0).
  - destruct (intrinsicsJacobian_entries P (neg3 (head3 ph)) outJi Hsz)
      as (J & HJ & Hr & Hc & Hlin).
    exists J. repeat split; auto.
    intros [[[v0 v1] v2] v3]. rewrite <- HJ. reflexivity.
  - destruct (intrinsicsJacobian_entries P (head3 ph) outJi Hsz)
      as (J & HJ & Hr & Hc & Hlin).
    exists J. repeat split; auto.
    intros [[[v0 v1] v2] v3]. rewrite <- HJ. reflexivity.
Qed.

End IntrinsicsJacobian.

(* ================================================================== *)
(** * The pose estimate and the reprojection error *)

Section PoseExtras.

Context {D : Type} `{Distortion D} {T : Type} `{Solvers T}.

(** A corner is kept exactly when its pixel is a valid keypoint: the
    back-projection always has [z = 1]. *)
Lemma keepBackProjected_cons (P : PinholeProjection D) m q Ms Ps :
  keepBackProjected P (m :: Ms) (q :: Ps)
  = (if isValid P m
     then [(q, Vec2 (v3_0 (snd (keypointToEuclidean P m)) / 1)
                    (v3_1 (snd (keypointToEuclidean P m)) / 1))]
     else [])
    ++ keepBackProjected P Ms Ps.
Proof.
  simpl.
  replace (gtb 1 0) with true by (symmetry; apply gtb_true_iff; lra).
  destruct (isValid P m); reflexivity.
Qed.

Lemma keepBackProjected_length (P : PinholeProjection D) Ms :
  forall Ps, length Ps = length Ms ->
  length (keepBackProjected P Ms Ps) = length (filter (isValid P) Ms).
Proof.
  induction Ms as [|m Ms IH]; intros Ps Hlen.
  - destruct Ps; reflexivity.
  - destruct Ps as [|q Ps]; [ discriminate | ].
    rewrite keepBackProjected_cons, length_app, IH by (simpl in Hlen; lia).
    simpl. destruct (isValid P m); reflexivity.
Qed.

Lemma keepBackProjected_app (P : PinholeProjection D) Ms1 :
  forall Ps1 Ms2 Ps2, length Ps1 = length Ms1 ->
  keepBackProjected P (Ms1 ++ Ms2) (Ps1 ++ Ps2)
  = keepBackProjected P Ms1 Ps1 ++ keepBackProjected P Ms2 Ps2.
Proof.
  induction Ms1 as [|m Ms1 IH]; intros Ps1 Ms2 Ps2 Hlen.
  - destruct Ps1; [ reflexivity | discriminate ].
  - destruct Ps1 as [|q Ps1]; [ discriminate | ].
    rewrite <- !app_comm_cons, !keepBackProjected_cons, IH
      by (simpl in Hlen; lia).
    rewrite app_assoc. reflexivity.
Qed.

(** X15.  With as many target corners as image corners,
    [estimateTransformation] succeeds exactly when at least four of the
    observed pixels are valid keypoints of the current projection; with
    fewer it returns false without calling the pose solver. *)
Theorem estimateTransformation_needs_four (P : PinholeProjection D)
    (obs : GridCalibrationTargetObservation) :
  length (getCornersTargetFrame obs) = length (getCornersImageFrame obs) ->
  ((exists pose, estimateTransformation P obs = Some pose) <->
   (4 <= length (filter (isValid P) (getCornersImageFrame obs)))%nat) /\
  ((length (getCornersImageFrame obs) < 4)%nat ->
   estimateTransformation P obs = None).
Proof.
  intros Hlen.
  assert (Hcount : length (map fst (keepBackProjected P
                     (getCornersImageFrame obs) (getCornersTargetFrame obs)))
                   = length (filter (isValid P) (getCornersImageFrame obs))).
  { rewrite length_map. apply keepBackProjected_length. exact Hlen. }
  unfold estimateTransformation. cbv zeta. rewrite Hcount.
  split; [ split | ].
  - intros [pose Hpose].
    destruct (_ <? 4)%nat eqn:E; [ discriminate | ].
    apply Nat.ltb_ge in E. exact E.
  - intros Hfour. apply Nat.ltb_ge in Hfour. rewrite Hfour.
    eexists. reflexivity.
  - intros Hfew.
    pose proof (filter_length_le (isValid P) (getCornersImageFrame obs)) as Hle.
    destruct (_ <? 4)%nat eqn:E; [ reflexivity | ].
    apply Nat.ltb_ge in E. lia.
Qed.

(** The running count and error of [computeReprojectionError] over any
    list of indices. *)
Lemma reprojection_fold_bounds (P : PinholeProjection D) obs tgt
    (pose : T) (l : list nat) :
  forall count err,
    0 <= err ->
    let r :=
      fold_left
        (fun (acc : nat * R) (i : nat) =>
           let '(count, outErr) := acc in
           match imagePoint obs i with
           | Some y =>
             let '(visible, yhat) :=
               euclideanToKeypoint P
                 (transform pose (GridTarget.point tgt i)) in
             if visible then (S count, outErr + dist2 y yhat) else acc
           | None => acc
           end) l (count, err) in
    (count <= fst r <= count + length l)%nat /\ 0 <= snd r /\
    ((forall i, In i l -> imagePoint obs i = None) -> r = (count, err)).
Proof.
  induction l as [|i l IH]; intros count err Herr.
  - simpl. repeat split; auto; lia.
  - cbn [fold_left].
    destruct (imagePoint obs i) as [y|] eqn:Hy.
    + destruct (euclideanToKeypoint P (transform pose (GridTarget.point tgt i)))
        as [visible yhat].
      destruct visible.
      * assert (Hd : 0 <= err + dist2 y yhat).
        { pose proof (sqrt_pos (square (v2_0 y - v2_0 yhat)
                                + square (v2_1 y - v2_1 yhat))).
          unfold dist2. lra. }
        destruct (IH (S count) (err + dist2 y yhat) Hd) as (Hc & He & _).
        cbv zeta in Hc, He |- *. simpl length.
        split; [ lia | split; [ exact He | ] ].
        intros Hnone. specialize (Hnone i (or_introl eq_refl)). congruence.
      * destruct (IH count err Herr) as (Hc & He & _).
        cbv zeta in Hc, He |- *. simpl length.
        split; [ lia | split; [ exact He | ] ].
        intros Hnone. specialize (Hnone i (or_introl eq_refl)). congruence.
    + destruct (IH count err Herr) as (Hc & He & Hn).
      cbv zeta in Hc, He, Hn |- *. simpl length.
      split; [ lia | split; [ exact He | ] ].
      intros Hnone. apply Hn. intros j Hj. apply Hnone. right. exact Hj.
Qed.

(** X16.  [computeReprojectionError] counts at most as many points as
    the target has, its summed error is never negative, and when no
    target point was observed in the image it returns the count 0 with
    error 0. *)
Theorem computeReprojectionError_bounds (P : PinholeProjection D)
    (obs : GridCalibrationTargetObservation) (tgt : GridTarget.t)
    (T_target_camera : T) :
  (fst (computeReprojectionError P obs tgt T_target_camera)
   <= GridTarget.size tgt)%nat /\
  0 <= snd (computeReprojectionError P obs tgt T_target_camera) /\
  ((forall i, (i < GridTarget.size tgt)%nat -> imagePoint obs i = None) ->
   computeReprojectionError P obs tgt T_target_camera = (0%nat, 0)).
Proof.
  unfold computeReprojectionError. cbv zeta.
  destruct (reprojection_fold_bounds P obs tgt (inverse T_target_camera)
              (seq 0 (GridTarget.size tgt)) 0%nat 0 (Rle_refl 0))
    as (Hc & He & Hn).
  cbv zeta in Hc, He, Hn. rewrite length_seq in Hc.
  split; [ lia | split; [ exact He | ] ].
  intros Hnone. apply Hn. intros i Hi. apply in_seq in Hi.
  apply Hnone. lia.
Qed.

End PoseExtras.

(* ================================================================== *)
(** * The in-place compaction of the correspondences *)

Lemma nth_of_skipn {A : Type} (d : A) (i : nat) :
  forall l l' : list A, skipn i l = skipn i l' -> nth i l d = nth i l' d.
Proof.
  induction i as [|i IH]; intros l l' E.
  - simpl in E. subst l'. reflexivity.
  - destruct l as [|a l], l' as [|a' l']; simpl in *.
    + reflexivity.
    + rewrite <- (firstn_skipn i l') at 1. rewrite <- E.
      rewrite app_nil_r. destruct (Nat.lt_ge_cases i (length l')) as [Hlt|Hge].
      * assert (Hlen : length (skipn i l') = 0%nat) by (rewrite <- E; reflexivity).
        rewrite length_skipn in Hlen. lia.
      * rewrite nth_overflow; [ reflexivity | ].
        rewrite length_firstn. lia.
    + rewrite <- (firstn_skipn i l) at 1. rewrite E.
      rewrite app_nil_r. destruct (Nat.lt_ge_cases i (length l)) as [Hlt|Hge].
      * assert (Hlen : length (skipn i l) = 0%nat) by (rewrite E; reflexivity).
        rewrite length_skipn in Hlen. lia.
      * rewrite nth_overflow; [ reflexivity | ].
        rewrite length_firstn. lia.
    + apply IH. exact E.
Qed.

Lemma firstn_succ_nth {A : Type} (d : A) (i : nat) :
  forall l : list A, (i < length l)%nat ->
  firstn (S i) l = firstn i l ++ [nth i l d].
Proof.
  induction i as [|i IH]; intros l Hlt.
  - destruct l; [ simpl in Hlt; lia | reflexivity ].
  - destruct l as [|a l]; [ simpl in Hlt; lia | ].
    simpl in Hlt. cbn [firstn nth app]. f_equal.
    change (firstn (S i) l = firstn i l ++ [nth i l d]).
    apply IH. lia.
Qed.

Lemma skipn_succ_of_skipn {A : Type} (i : nat) (l l' : list A) :
  skipn i l = skipn i l' -> skipn (S i) l = skipn (S i) l'.
Proof.
  intros E.
  replace (S i) with (1 + i)%nat by lia.
  rewrite <- !skipn_skipn, E. reflexivity.
Qed.

(** Writing element [c] of a vector, for [c <= i] inside the vector,
    succeeds, keeps the length, extends the compacted prefix by the value
    written and leaves everything after position [i] untouched. *)
Lemma assignAt_prefix {A : Type} (v : list A) (c i : nat) (x : A) :
  (c <= i)%nat -> (i < length v)%nat ->
  exists v',
    assignAt v c x = Some v' /\
    length v' = length v /\
    firstn (S c) v' = firstn c v ++ [x] /\
    skipn (S i) v' = skipn (S i) v.
Proof.
  intros Hci Hi. unfold assignAt.
  assert (Hc : (c <? length v)%nat = true) by (apply Nat.ltb_lt; lia).
  rewrite Hc. eexists. split; [ reflexivity | ].
  assert (Hfl : length (firstn c v) = c) by (rewrite length_firstn; lia).
  split; [ | split ].
  - rewrite length_app, Hfl. cbn [length]. rewrite length_skipn. lia.
  - rewrite firstn_app, Hfl.
    rewrite firstn_all2 by lia.
    replace (S c - c)%nat with 1%nat by lia. reflexivity.
  - rewrite skipn_app, Hfl.
    rewrite skipn_all2 by lia.
    replace (S i - c)%nat with (S (i - c)) by lia.
    rewrite app_nil_l, skipn_cons, skipn_skipn. f_equal. lia.
Qed.

Section Compaction.

Context {D : Type} `{Distortion D}.

(** The state of the loop after [i] corners: the first [count] elements
    of both vectors are the correspondences kept so far, and the elements
    from [i] on are still the original ones. *)
Lemma compaction_invariant (P : PinholeProjection D)
    (Ms : list Vector2d) (Ps : list Vector3d) :
  length Ps = length Ms ->
  forall i, (i <= length Ms)%nat ->
  exists Ms' Ps',
    let kept := keepBackProjected P (firstn i Ms) (firstn i Ps) in
    fold_left (compactStep P) (seq 0 i) (Some (Ms, Ps, 0%nat))
    = Some (Ms', Ps', length kept) /\
    (length kept <= i)%nat /\
    length Ms' = length Ms /\ length Ps' = length Ps /\
    firstn (length kept) Ms' = map snd kept /\
    firstn (length kept) Ps' = map fst kept /\
    skipn i Ms' = skipn i Ms /\ skipn i Ps' = skipn i Ps.
Proof.
  intros Hlen. induction i as [|i IH]; intros Hi.
  - exists Ms, Ps. simpl. repeat split; auto.
  - destruct IH as (Ms' & Ps' & Hrun & Hcount & HlM & HlP & HfM & HfP & HsM & HsP);
      [ lia | ].
    cbv zeta in Hrun, Hcount, HfM, HfP |- *.
    set (kept := keepBackProjected P (firstn i Ms) (firstn i Ps)) in *.
    set (m := nth i Ms (Vec2 0 0)). set (q := nth i Ps (Vec3 0 0 0)).
    assert (Hkept : keepBackProjected P (firstn (S i) Ms) (firstn (S i) Ps)
                    = kept ++ (if isValid P m
                               then [(q, Vec2 (v3_0 (snd (keypointToEuclidean P m)) / 1)
                                               (v3_1 (snd (keypointToEuclidean P m)) / 1))]
                               else [])).
    { rewrite (firstn_succ_nth (Vec2 0 0) i Ms) by lia.
      rewrite (firstn_succ_nth (Vec3 0 0 0) i Ps) by lia.
      rewrite keepBackProjected_app
        by (rewrite !length_firstn; lia).
      fold kept. fold m. fold q. f_equal.
      rewrite keepBackProjected_cons. simpl. apply app_nil_r. }
    rewrite Hkept.
    rewrite seq_S, fold_left_app, Hrun. cbn [fold_left Nat.add].
    unfold compactStep.
    rewrite (nth_of_skipn (Vec3 0 0 0) i Ps' Ps HsP).
    rewrite (nth_of_skipn (Vec2 0 0) i Ms' Ms HsM).
    fold m. fold q.
    unfold keypointToEuclidean at 1. cbv zeta.
    cbn [v3_0 v3_1 v3_2 snd].
    replace (gtb 1 0.0) with true by (symmetry; apply gtb_true_iff; lra).
    destruct (isValid P m) eqn:Hvalid; cbn [andb].
    + destruct (assignAt_prefix Ps' (length kept) i q Hcount) as
        (Ps'' & HaP & HlP' & HfP' & HsP'); [ lia | ].
      destruct (assignAt_prefix Ms' (length kept) i
                  (Vec2 (v3_0 (snd (keypointToEuclidean P m)) / 1)
                        (v3_1 (snd (keypointToEuclidean P m)) / 1)) Hcount)
        as (Ms'' & HaM & HlM' & HfM' & HsM'); [ lia | ].
      unfold keypointToEuclidean in HaM at 1 2. cbn [snd v3_0 v3_1] in HaM.
      rewrite HaP, HaM.
      exists Ms'', Ps''.
      rewrite length_app. cbn [length].
      replace (length kept + 1)%nat with (S (length kept)) by lia.
      split; [ reflexivity | ].
      split; [ lia | ].
      split; [ lia | split; [ lia | ] ].
      rewrite !map_app. cbn [map fst snd].
      split; [ rewrite HfM', HfM; reflexivity | ].
      split; [ rewrite HfP', HfP; reflexivity | ].
      split.
      * rewrite HsM'. apply skipn_succ_of_skipn. exact HsM.
      * rewrite HsP'. apply skipn_succ_of_skipn. exact HsP.
    + exists Ms', Ps'.
      rewrite app_nil_r.
      split; [ reflexivity | ].
      split; [ lia | ].
      split; [ exact HlM | split; [ exact HlP | ] ].
      split; [ exact HfM | split; [ exact HfP | ] ].
      split; apply skipn_succ_of_skipn; assumption.
Qed.

(** X17.  The loop of [estimateTransformation] compacts [Ms] and [Ps]
    in place.  With as many target corners as image corners no access is
    out of range, and after the two calls to [resize] the vectors hold
    exactly the kept correspondences, in order: overwriting element
    [count] never destroys a corner that is still to be read. *)
Theorem compactCorrespondences_keeps (P : PinholeProjection D)
    (Ms : list Vector2d) (Ps : list Vector3d) :
  length Ps = length Ms ->
  compactCorrespondences P Ms Ps
  = Some (map fst (keepBackProjected P Ms Ps),
          map snd (keepBackProjected P Ms Ps)).
Proof.
  intros Hlen.
  destruct (compaction_invariant P Ms Ps Hlen (length Ms) (Nat.le_refl _))
    as (Ms' & Ps' & Hrun & _ & _ & _ & HfM & HfP & _).
  cbv zeta in Hrun, HfM, HfP.
  assert (Hp : firstn (length Ms) Ps = Ps)
    by (rewrite <- Hlen; apply firstn_all).
  rewrite firstn_all, Hp in Hrun, HfM, HfP.
  unfold compactCorrespondences.
  rewrite Hrun, HfM, HfP. reflexivity.
Qed.

End Compaction.

(* ================================================================== *)
(** * What the initialiser leaves in the object *)

Section InitializerExtras.

Context {D : Type} `{Distortion D} {T : Type} `{Solvers T}.

(** The messages logged so far have no influence on an iteration. *)
Lemma rowIteration_scanCore obs tgt (s1 s2 : ScanState D) (r : nat) :
  scanCore s1 = scanCore s2 ->
  scanCore (rowIteration obs tgt s1 r) = scanCore (rowIteration obs tgt s2 r).
Proof.
  destruct s1 as [P1 g1 m1 b1 l1], s2 as [P2 g2 m2 b2 l2].
  unfold scanCore; simpl. intros E. injection E as -> -> -> ->.
  unfold rowIteration. cbv zeta. cbn [proj gamma0 minReprojErr success debugLog logged].
  destruct (MIN_CORNERS <? _)%nat; [ | reflexivity ].
  destruct (ltb _ 0); [ reflexivity | ].
  destruct (gtb _ 0.95); [ reflexivity | ].
  destruct (estimateTransformation _ obs) as [pose|]; [ | reflexivity ].
  destruct (computeReprojectionError _ obs tgt pose) as [n err].
  destruct (MIN_CORNERS <? n)%nat; [ | reflexivity ].
  destruct (ltb (err / INR n) m2); reflexivity.
Qed.

Lemma scan_scanCore obs tgt (rows : list nat) :
  forall s1 s2 : ScanState D,
    scanCore s1 = scanCore s2 ->
    scanCore (fold_left (rowIteration obs tgt) rows s1)
    = scanCore (fold_left (rowIteration obs tgt) rows s2).
Proof.
  induction rows as [|r rows IH]; intros s1 s2 E; [ exact E | ].
  simpl. apply IH. apply rowIteration_scanCore. exact E.
Qed.

(** X18.  When the observation has a target, the call leaves the
    principal point at the image centre, the resolution at the image
    size, the distortion cleared, equal focal lengths and fresh caches,
    whether it succeeds or not. *)
Theorem initializeIntrinsics_postcondition (P P' : PinholeProjection D)
    (obs : GridCalibrationTargetObservation)
    (others : list GridCalibrationTargetObservation)
    (tgt : GridTarget.t) (b : bool) (log : list LogEvent) :
  target obs = Some tgt ->
  initializeIntrinsics P (obs :: others) = Some (b, P', log) ->
  _cu P' = (IZR (imCols obs) - 1) / 2 /\
  _cv P' = (IZR (imRows obs) - 1) / 2 /\
  _ru P' = imCols obs /\ _rv P' = imRows obs /\
  _distortion P' = clear (_distortion P) /\
  _fu P' = _fv P' /\
  cachesFresh P'.
Proof.
  intros Htgt Hrun.
  destruct (initializeIntrinsics_with_target P obs others tgt Htgt)
    as [log0 Hrun'].
  rewrite Hrun in Hrun'. cbv zeta in Hrun'. injection Hrun' as _ HP _.
  destruct (scanned_invariant (centredProjection P obs) obs tgt log0
              (GridTarget.rows tgt)) as ((Hcu & Hcv & Hru & Hrv & Hd) & _).
  subst P'. unfold setFocal, updateTemporaries, cachesFresh; simpl.
  rewrite Hcu, Hcv, Hru, Hrv, Hd. simpl.
  repeat split; reflexivity.
Qed.

(** X19.  Only the first observation is used: further observations
    change neither the value returned nor the object, only the log. *)
Theorem initializeIntrinsics_first_observation_only (P : PinholeProjection D)
    (obs : GridCalibrationTargetObservation)
    (others : list GridCalibrationTargetObservation) :
  exists b P' log log1,
    initializeIntrinsics P (obs :: others) = Some (b, P', log) /\
    initializeIntrinsics P [obs] = Some (b, P', log1).
Proof.
  unfold initializeIntrinsics.
  destruct (target obs) as [tgt|].
  - set (P1 := mkPinholeProjection _ _ _ _ _ _ _ _ _ _).
    pose proof (scan_scanCore obs tgt (seq 0 (GridTarget.rows tgt))
                  (mkScan P1 0 DBL_MAX false
                     match others with [] => [] | _ :: _ => [OnlyFirstObservation] end)
                  (mkScan P1 0 DBL_MAX false []) eq_refl) as E.
    unfold scanCore in E. injection E as Ep Eg Em Es.
    do 4 eexists. split; [ reflexivity | ].
    rewrite Ep, Eg, Es. reflexivity.
  - do 4 eexists. split; reflexivity.
Qed.

End InitializerExtras.

(* ================================================================== *)
(** * More on the intersection of two circles *)

Lemma chord_example_contents :
  PinholeHelpers.contents (PinholeHelpers.intersectCircles 0 0 5 6 0 5)
  = [Vec2 3 (-4); Vec2 3 4].
Proof.
  pose proof (intersectCircles_cases 0 0 5 6 0 5) as Hc.
  cbv zeta in Hc. unfold chordHalfHeight, chordOffset, chordDistance in Hc.
  assert (Ha : (square 5 - square 5 + square 6) / (2 * 6) = 3)
    by (unfold square; field).
  rewrite !chord_example_distance, !Ha, !chord_example_height in Hc.
  destruct Hc as (_ & _ & Htwo).
  rewrite Htwo.
  - simpl. f_equal; [ | f_equal ]; f_equal; field.
  - lra.
  - replace (5 - 5) with 0 by ring. rewrite Rabs_R0. lra.
  - lra.
Qed.

Lemma intersectCircles_on_both_circles_witness :
  sqdist 3 4 0 0 = square 5 /\ sqdist 3 4 6 0 = square 5.
Proof.
  assert (Ha : chordOffset 5 5 (chordDistance 0 0 6 0) = 3).
  { unfold chordOffset, chordDistance. rewrite chord_example_distance.
    unfold square. field. }
  assert (Hh : chordHalfHeight 5 (chordOffset 5 5 (chordDistance 0 0 6 0)) = 4).
  { rewrite Ha. apply chord_example_height. }
  apply (intersectCircles_on_both_circles 0 0 5 6 0 5 (Vec2 3 4)).
  - unfold chordDistance. rewrite chord_example_distance. lra.
  - unfold chordDistance. rewrite chord_example_distance. lra.
  - unfold chordDistance. rewrite chord_example_distance.
    replace (5 - 5) with 0 by ring. rewrite Rabs_R0. lra.
  - rewrite Hh. lra.
  - rewrite chord_example_contents. right. left. reflexivity.
Defined.

Section CircleExtras.

Variables x1 y1 r1 x2 y2 r2 : R.

(** Past the two guards the chord construction takes the square root of
    a number that is not negative. *)
Lemma chord_radicand_nonneg :
  let d := chordDistance x1 y1 x2 y2 in
  let a := chordOffset r1 r2 d in
  0 < d -> d <= r1 + r2 -> Rabs (r1 - r2) <= d ->
  0 <= square r1 - square a.
Proof.
  intros d a Hd H1 H2.
  assert (Habs : r1 - r2 <= d /\ r2 - r1 <= d).
  { unfold Rabs in H2. destruct (Rcase_abs (r1 - r2)); lra. }
  destruct Habs as [Hab1 Hab2].
  assert (E : square r1 - square a
              = ((d + r1 - r2) * (d + r1 + r2))
                * ((d - r1 + r2) * (r1 + r2 - d)) / (4 * (d * d))).
  { unfold a, chordOffset, square. field. lra. }
  rewrite E. apply Rmult_le_pos.
  - apply Rmult_le_pos; apply Rmult_le_pos; lra.
  - apply Rlt_le, Rinv_0_lt_compat. nra.
Qed.

(** X21.  In the tangent case with distinct centres the single point
    returned is the foot of the chord: its squared distance from either
    centre falls short of the squared radius by [h * h], which is less
    than [1e-20]. *)
Theorem intersectCircles_tangent_point :
  let d := chordDistance x1 y1 x2 y2 in
  let a := chordOffset r1 r2 d in
  let h := chordHalfHeight r1 a in
  0 < d -> d <= r1 + r2 -> Rabs (r1 - r2) <= d -> h < 1e-10 ->
  exists p,
    PinholeHelpers.intersectCircles x1 y1 r1 x2 y2 r2
    = PinholeHelpers.Vector [p] /\
    sqdist (v2_0 p) (v2_1 p) x1 y1 = square r1 - h * h /\
    sqdist (v2_0 p) (v2_1 p) x2 y2 = square r2 - h * h /\
    0 <= h * h < 1e-20.
Proof.
  intros d a h Hd H1 H2 Hh.
  destruct (intersectCircles_cases x1 y1 r1 x2 y2 r2) as (_ & Hone & _).
  cbv zeta in Hone. fold d in Hone. fold a in Hone. fold h in Hone.
  eexists. split; [ apply Hone; assumption | ].
  assert (Hdd : d * d = square (x1 - x2) + square (y1 - y2)).
  { unfold d, chordDistance, hypot. apply sqrt_sqrt. unfold square.
    pose proof (Rle_0_sqr (x1 - x2)) as Hsx.
    pose proof (Rle_0_sqr (y1 - y2)) as Hsy.
    unfold Rsqr in Hsx, Hsy. lra. }
  assert (Hhh : h * h = square r1 - square a).
  { unfold h, chordHalfHeight. apply sqrt_sqrt.
    apply chord_radicand_nonneg; assumption. }
  assert (Hh0 : 0 <= h) by (unfold h, chordHalfHeight; apply sqrt_pos).
  assert (Ha : 2 * d * a = square r1 - square r2 + square d).
  { unfold a, chordOffset. field. lra. }
  set (u := (x2 - x1) / d). set (v := (y2 - y1) / d).
  assert (Hu : x2 - x1 = d * u) by (unfold u; field; lra).
  assert (Hv : y2 - y1 = d * v) by (unfold v; field; lra).
  assert (Huv : u * u + v * v = 1).
  { assert (E : d * d * (u * u + v * v) = d * d).
    { rewrite Hdd at 2. unfold square.
      replace (x1 - x2) with (- (d * u)) by lra.
      replace (y1 - y2) with (- (d * v)) by lra. ring. }
    assert (Hd2 : d * d <> 0) by nra.
    apply (Rmult_eq_reg_l (d * d)); [ lra | exact Hd2 ]. }
  assert (Hx3 : x1 + a * (x2 - x1) / d = x1 + a * u) by (unfold u; field; lra).
  assert (Hy3 : y1 + a * (y2 - y1) / d = y1 + a * v) by (unfold v; field; lra).
  unfold sqdist; simpl. rewrite Hx3, Hy3. unfold square in *.
  split; [ | split ].
  - replace (x1 + a * u - x1) with (a * u) by ring.
    replace (y1 + a * v - y1) with (a * v) by ring.
    transitivity (a * a * (u * u + v * v)); [ ring | ].
    rewrite Huv, Hhh. ring.
  - replace (x1 + a * u - x2) with ((a - d) * u) by lra.
    replace (y1 + a * v - y2) with ((a - d) * v) by lra.
    transitivity ((a - d) * (a - d) * (u * u + v * v)); [ ring | ].
    rewrite Huv, Hhh. lra.
  - split; [ nra | ].
    assert (Hb : h * h <= h * 1e-10) by nra.
    assert (Hc : h * 1e-10 < 1e-10 * 1e-10) by nra.
    lra.
Qed.

(** X22.  No intersection is missed: when some point lies on both
    circles (radii not negative), neither guard fires and the vector of
    intersection points is not empty. *)
Theorem intersectCircles_complete (qx qy : R) :
  0 <= r1 -> 0 <= r2 ->
  sqdist qx qy x1 y1 = square r1 ->
  sqdist qx qy x2 y2 = square r2 ->
  PinholeHelpers.contents (PinholeHelpers.intersectCircles x1 y1 r1 x2 y2 r2)
  <> [].
Proof.
  intros Hr1 Hr2 Hq1 Hq2.
  unfold sqdist, square in Hq1, Hq2.
  set (u1 := qx - x1) in *. set (u2 := qy - y1) in *.
  set (w1 := x2 - qx). set (w2 := y2 - qy).
  assert (Hw : w1 * w1 + w2 * w2 = r2 * r2) by (unfold w1, w2; lra).
  assert (Hcs : (u1 * w1 + u2 * w2) * (u1 * w1 + u2 * w2)
                <= (r1 * r2) * (r1 * r2)).
  { pose proof (Rle_0_sqr (u1 * w2 - u2 * w1)) as Hsq. unfold Rsqr in Hsq.
    replace (r1 * r2 * (r1 * r2))
      with ((u1 * u1 + u2 * u2) * (w1 * w1 + w2 * w2))
      by (rewrite Hq1, Hw; ring).
    lra. }
  assert (Hp : 0 <= r1 * r2) by (apply Rmult_le_pos; assumption).
  assert (Hdot : - (r1 * r2) <= u1 * w1 + u2 * w2 <= r1 * r2) by nra.
  set (S := square (x1 - x2) + square (y1 - y2)).
  assert (HS : S = r1 * r1 + r2 * r2 + 2 * (u1 * w1 + u2 * w2)).
  { unfold S, square.
    replace (x1 - x2) with (- (u1 + w1)) by (unfold u1, w1; ring).
    replace (y1 - y2) with (- (u2 + w2)) by (unfold u2, w2; ring).
    rewrite <- Hq1, <- Hw. ring. }
  assert (Hupper : hypot (x1 - x2) (y1 - y2) <= r1 + r2).
  { unfold hypot. fold S.
    rewrite <- (sqrt_square (r1 + r2)) by lra.
    apply sqrt_le_1_alt. rewrite HS. lra. }
  assert (Hlower : Rabs (r1 - r2) <= hypot (x1 - x2) (y1 - y2)).
  { unfold hypot. fold S.
    rewrite <- sqrt_Rsqr_abs. apply sqrt_le_1_alt.
    unfold Rsqr. rewrite HS. lra. }
  unfold PinholeHelpers.intersectCircles. cbv zeta.
  apply gtb_false_iff in Hupper. rewrite Hupper.
  apply ltb_false_iff in Hlower. rewrite Hlower.
  destruct (ltb _ 1e-10); simpl; discriminate.
Qed.

End CircleExtras.

(* ================================================================== *)
(** * The circle fit *)

Section CircleFitExtras.

Variables cx cy r : R.

(** The relations between the running sums when every point seen so far
    lies on the circle; [m] is the number of points seen. *)
Lemma accumulate_on_circle (points : list Vector2d) :
  Forall (fun pt => sqdist (v2_0 pt) (v2_1 pt) cx cy = square r) points ->
  forall (s : CircleFit.Sums) (m : R),
    let k := r * r - cx * cx - cy * cy in
    CircleFit.sum_xx s + CircleFit.sum_yy s
    = 2 * cx * CircleFit.sum_x s + 2 * cy * CircleFit.sum_y s + k * m ->
    CircleFit.sum_xxx s + CircleFit.sum_xyy s
    = 2 * cx * CircleFit.sum_xx s + 2 * cy * CircleFit.sum_xy s
      + k * CircleFit.sum_x s ->
    CircleFit.sum_xxy s + CircleFit.sum_yyy s
    = 2 * cx * CircleFit.sum_xy s + 2 * cy * CircleFit.sum_yy s
      + k * CircleFit.sum_y s ->
    let s' := fold_left CircleFit.accumulate points s in
    let m' := m + INR (length points) in
    CircleFit.sum_xx s' + CircleFit.sum_yy s'
    = 2 * cx * CircleFit.sum_x s' + 2 * cy * CircleFit.sum_y s' + k * m' /\
    CircleFit.sum_xxx s' + CircleFit.sum_xyy s'
    = 2 * cx * CircleFit.sum_xx s' + 2 * cy * CircleFit.sum_xy s'
      + k * CircleFit.sum_x s' /\
    CircleFit.sum_xxy s' + CircleFit.sum_yyy s'
    = 2 * cx * CircleFit.sum_xy s' + 2 * cy * CircleFit.sum_yy s'
      + k * CircleFit.sum_y s'.
Proof.
  induction 1 as [|pt points Hpt Hrest IH]; intros s m k H1 H2 H3.
  - simpl. rewrite Rplus_0_r. auto.
  - cbn [fold_left length]. rewrite S_INR.
    replace (m + (INR (length points) + 1))
      with ((m + 1) + INR (length points)) by ring.
    assert (E : v2_0 pt * v2_0 pt + v2_1 pt * v2_1 pt
                = 2 * cx * v2_0 pt + 2 * cy * v2_1 pt + k)
      by (unfold sqdist, square in Hpt; unfold k; lra).
    assert (Ex : v2_0 pt * v2_0 pt * v2_0 pt + v2_0 pt * v2_1 pt * v2_1 pt
                 = 2 * cx * (v2_0 pt * v2_0 pt) + 2 * cy * (v2_0 pt * v2_1 pt)
                   + k * v2_0 pt).
    { transitivity (v2_0 pt * (v2_0 pt * v2_0 pt + v2_1 pt * v2_1 pt));
        [ ring | rewrite E; ring ]. }
    assert (Ey : v2_0 pt * v2_0 pt * v2_1 pt + v2_1 pt * v2_1 pt * v2_1 pt
                 = 2 * cx * (v2_0 pt * v2_1 pt) + 2 * cy * (v2_1 pt * v2_1 pt)
                   + k * v2_1 pt).
    { transitivity (v2_1 pt * (v2_0 pt * v2_0 pt + v2_1 pt * v2_1 pt));
        [ ring | rewrite E; ring ]. }
    apply IH; fold k; unfold CircleFit.accumulate;
      cbn [CircleFit.sum_x CircleFit.sum_y CircleFit.sum_xx CircleFit.sum_xy
           CircleFit.sum_yy CircleFit.sum_xxx CircleFit.sum_xxy
           CircleFit.sum_xyy CircleFit.sum_yyy].
    + transitivity ((CircleFit.sum_xx s + CircleFit.sum_yy s)
                    + (v2_0 pt * v2_0 pt + v2_1 pt * v2_1 pt)); [ ring | ].
      rewrite H1, E. ring.
    + transitivity ((CircleFit.sum_xxx s + CircleFit.sum_xyy s)
                    + (v2_0 pt * v2_0 pt * v2_0 pt
                       + v2_0 pt * v2_1 pt * v2_1 pt)); [ ring | ].
      rewrite H2, Ex. ring.
    + transitivity ((CircleFit.sum_xxy s + CircleFit.sum_yyy s)
                    + (v2_0 pt * v2_0 pt * v2_1 pt
                       + v2_1 pt * v2_1 pt * v2_1 pt)); [ ring | ].
      rewrite H3, Ey. ring.
Qed.

(** The second loop adds the radius once per point. *)
Lemma radii_on_circle (points : list Vector2d) :
  0 <= r ->
  Forall (fun pt => sqdist (v2_0 pt) (v2_1 pt) cx cy = square r) points ->
  forall acc,
    fold_left (fun acc pt => acc + hypot (v2_0 pt - cx) (v2_1 pt - cy))
      points acc
    = acc + INR (length points) * r.
Proof.
  intros Hr. induction 1 as [|pt points Hpt Hrest IH]; intros acc.
  - simpl. ring.
  - cbn [fold_left length]. rewrite IH, S_INR.
    assert (Hh : hypot (v2_0 pt - cx) (v2_1 pt - cy) = r).
    { unfold hypot. unfold sqdist in Hpt. rewrite Hpt.
      unfold square. apply sqrt_square. exact Hr. }
    rewrite Hh. ring.
Qed.

(** X23.  For points that all lie on the circle of centre [(cx, cy)] and
    radius [r], and whose normal equations are not singular, [fitCircle]
    returns exactly that centre and that radius. *)
Theorem fitCircle_exact (points : list Vector2d) :
  0 <= r ->
  Forall (fun pt => sqdist (v2_0 pt) (v2_1 pt) cx cy = square r) points ->
  CircleFit.determinant points <> 0 ->
  CircleFit.fitCircle points = (cx, cy, r).
Proof.
  intros Hr Hon Hdet.
  assert (Hn : INR (length points) <> 0).
  { destruct points as [|pt points].
    - exfalso. apply Hdet. unfold CircleFit.determinant, square; simpl. ring.
    - cbn [length]. rewrite S_INR.
      pose proof (pos_INR (length points)). lra. }
  destruct (accumulate_on_circle points Hon
              (CircleFit.mkSums 0 0 0 0 0 0 0 0 0) 0) as (I1 & I2 & I3);
    try (simpl; ring).
  cbv zeta in I1, I2, I3. rewrite Rplus_0_l in I1.
  unfold CircleFit.determinant in Hdet. cbv zeta in Hdet.
  unfold CircleFit.fitCircle. cbv zeta.
  set (s := fold_left CircleFit.accumulate points
              (CircleFit.mkSums 0 0 0 0 0 0 0 0 0)) in *.
  set (n := INR (length points)) in *.
  set (k := r * r - cx * cx - cy * cy) in *.
  set (A := n * CircleFit.sum_xx s - square (CircleFit.sum_x s)) in *.
  set (B := n * CircleFit.sum_xy s - CircleFit.sum_x s * CircleFit.sum_y s) in *.
  set (C := n * CircleFit.sum_yy s - square (CircleFit.sum_y s)) in *.
  assert (HD : 0.5 * (n * CircleFit.sum_xyy s
                      - CircleFit.sum_x s * CircleFit.sum_yy s
                      + n * CircleFit.sum_xxx s
                      - CircleFit.sum_x s * CircleFit.sum_xx s)
               = cx * A + cy * B).
  { unfold A, B, square.
    transitivity (0.5 * (n * (CircleFit.sum_xxx s + CircleFit.sum_xyy s)
                         - CircleFit.sum_x s
                           * (CircleFit.sum_xx s + CircleFit.sum_yy s)));
      [ ring | ].
    rewrite I1, I2. lra. }
  assert (HE : 0.5 * (n * CircleFit.sum_xxy s
                      - CircleFit.sum_y s * CircleFit.sum_xx s
                      + n * CircleFit.sum_yyy s
                      - CircleFit.sum_y s * CircleFit.sum_yy s)
               = cx * B + cy * C).
  { unfold B, C, square.
    transitivity (0.5 * (n * (CircleFit.sum_xxy s + CircleFit.sum_yyy s)
                         - CircleFit.sum_y s
                           * (CircleFit.sum_xx s + CircleFit.sum_yy s)));
      [ ring | ].
    rewrite I1, I3. lra. }
  rewrite HD, HE.
  assert (Hcx : ((cx * A + cy * B) * C - B * (cx * B + cy * C))
                / (A * C - square B) = cx).
  { unfold square in *. field. exact Hdet. }
  assert (Hcy : (A * (cx * B + cy * C) - B * (cx * A + cy * B))
                / (A * C - square B) = cy).
  { unfold square in *. field. exact Hdet. }
  rewrite Hcx, Hcy.
  rewrite (radii_on_circle points Hr Hon 0).
  f_equal. fold n. field. exact Hn.
Qed.

End CircleFitExtras.

Lemma fitCircle_exact_witness :
  CircleFit.fitCircle pointsOnCircle = (1, 2, 5).
Proof.
  apply (fitCircle_exact 1 2 5 pointsOnCircle).
  - lra.
  - unfold pointsOnCircle.
    repeat (apply Forall_cons; [ unfold sqdist, square; simpl; lra | ]).
    apply Forall_nil.
  - unfold CircleFit.determinant, pointsOnCircle, square; simpl. lra.
Defined.

(* ================================================================== *)
(** * Instances of the further properties *)

Lemma getTestProjection_fresh : cachesFresh getTestProjection.
Proof. unfold cachesFresh; simpl; auto. Qed.

Lemma getTestProjection_focal :
  _fu getTestProjection <> 0 /\ _fv getTestProjection <> 0.
Proof. simpl. split; lra. Qed.

Lemma euclideanToKeypoint_scale_invariant_witness :
  0 < 2 /\
  snd (euclideanToKeypoint getTestProjection (scale3 2 (Vec3 1 1 10)))
  = snd (euclideanToKeypoint getTestProjection (Vec3 1 1 10)).
Proof.
  assert (Hs : 0 < 2) by lra.
  split; [ exact Hs | ].
  exact (proj1 (euclideanToKeypoint_scale_invariant getTestProjection
                  (Vec3 1 1 10) 2 Hs)).
Defined.

Lemma keypointToEuclidean_round_trip_witness :
  snd (euclideanToKeypoint getTestProjection
         (snd (keypointToEuclidean getTestProjection (Vec2 100 50))))
  = Vec2 100 50.
Proof.
  destruct getTestProjection_focal as [Hfu Hfv].
  exact (proj1 (keypointToEuclidean_round_trip getTestProjection (Vec2 100 50)
                  Hfu Hfv (fun q => eq_refl))).
Defined.

Lemma createRandomVisiblePoint_visible_witness :
  euclideanToKeypoint getTestProjection
    (createRandomVisiblePoint getTestProjection (Vec2 0.5 0.5) 0.5 10)
  = (true, createRandomKeypoint getTestProjection (Vec2 0.5 0.5)).
Proof.
  destruct getTestProjection_focal as [Hfu Hfv].
  assert (Hhalf : Rabs 0.5 < 1).
  { unfold Rabs. destruct (Rcase_abs 0.5); lra. }
  apply createRandomVisiblePoint_visible.
  - simpl; lia.
  - simpl; lia.
  - exact Hfu.
  - exact Hfv.
  - intros q. reflexivity.
  - exact Hhalf.
  - exact Hhalf.
  - left. lra.
Defined.

Lemma homogeneousToKeypoint_negation_witness :
  homogeneousToKeypoint getTestProjection (negate4 (Vec4 0 0 1 (-1)))
  = homogeneousToKeypoint getTestProjection (Vec4 0 0 1 (-1)).
Proof.
  apply (proj1 (homogeneousToKeypoint_negation getTestProjection
                  (Vec4 0 0 1 (-1)))).
  simpl. lra.
Defined.


Lemma resizeIntrinsics_scales_keypoints_witness :
  2 <> 0 /\
  _fu_over_fv (resizeIntrinsics getTestProjection 2)
  = _fu getTestProjection / _fv getTestProjection.
Proof.
  assert (Hs : 2 <> 0) by lra.
  split; [ exact Hs | ].
  exact (proj2 (resizeIntrinsics_scales_keypoints getTestProjection 2
                  (Vec3 0 0 1)) Hs).
Defined.


Lemma parameters_round_trip_witness :
  setParameters getTestProjection (getParameters getTestProjection)
  = getTestProjection.
Proof.
  exact (proj2 (proj2 (parameters_round_trip getTestProjection (0, 0, 0, 0)))
           getTestProjection_fresh).
Defined.

Lemma save_load_round_trip_witness :
  load 1 getTestProjection (save getTestProjection) 0 = Some getTestProjection.
Proof.
  apply (proj1 (proj2 (save_load_round_trip 1 0 getTestProjection
                         getTestProjection))).
  - lia.
  - exact getTestProjection_fresh.
Defined.


Lemma getBorderRays_valid_witness :
  length (getBorderRays getTestProjection) = 8%nat.
Proof.
  apply (getBorderRays_valid getTestProjection); simpl; lia.
Defined.

Lemma euclideanToKeypointJ_is_derivative_witness :
  1 <> 0 /\
  exists visible k J,
    euclideanToKeypointJ getTestProjection (Vec3 0 0 1) (fixedMatrix 2 3)
    = Ok (visible, k, J).
Proof.
  assert (Hz : 1 <> 0) by lra.
  split; [ exact Hz | ].
  assert (Hid : forall q, distortJ (_distortion getTestProjection) q
                          = (q, Mat2 1 0 0 1)) by (intros q; reflexivity).
  destruct (euclideanToKeypointJ_is_derivative getTestProjection 0 0 1 Hid Hz)
    as (visible & k & J & HJ & _).
  exists visible, k, J. exact HJ.
Defined.


Lemma homogeneousToKeypointIntrinsicsJacobian_linear_witness :
  specificSizeOrDynamic emptyMatrixXd 2 4 /\
  exists J,
    homogeneousToKeypointIntrinsicsJacobian getTestProjection
      (Vec4 0 0 1 1) emptyMatrixXd = Ok J.
Proof.
  assert (Hsz : specificSizeOrDynamic emptyMatrixXd 2 4).
  { unfold specificSizeOrDynamic; simpl; discriminate. }
  split; [ exact Hsz | ].
  destruct (homogeneousToKeypointIntrinsicsJacobian_linear getTestProjection
              (Vec4 0 0 1 1) emptyMatrixXd Hsz) as (J & HJ & _).
  exists J. exact HJ.
Defined.

Lemma estimateTransformation_needs_four_witness :
  estimateTransformation (T := unit) getTestProjection threeCornerObservation
  = None.
Proof.
  apply (proj2 (estimateTransformation_needs_four (T := unit)
                  getTestProjection threeCornerObservation eq_refl)).
  simpl. lia.
Defined.

Lemma computeReprojectionError_bounds_witness :
  computeReprojectionError (T := unit) getTestProjection
    observationWithoutTarget threeCornerTarget tt = (0%nat, 0).
Proof.
  apply (proj2 (proj2 (computeReprojectionError_bounds (T := unit)
                         getTestProjection observationWithoutTarget
                         threeCornerTarget tt))).
  intros i Hi. reflexivity.
Defined.

Lemma compactCorrespondences_keeps_witness :
  compactCorrespondences getTestProjection
    [Vec2 (-1) 0; Vec2 10 10] [Vec3 0 0 0; Vec3 1 0 0]
  = Some (map fst (keepBackProjected getTestProjection
                     [Vec2 (-1) 0; Vec2 10 10] [Vec3 0 0 0; Vec3 1 0 0]),
          map snd (keepBackProjected getTestProjection
                     [Vec2 (-1) 0; Vec2 10 10] [Vec3 0 0 0; Vec3 1 0 0])).
Proof.
  apply compactCorrespondences_keeps. reflexivity.
Defined.

Lemma initializeIntrinsics_postcondition_witness :
  exists P' log,
    initializeIntrinsics (T := unit) getTestProjection [threeCornerObservation]
    = Some (false, P', log) /\
    _ru P' = 640%Z /\ _rv P' = 480%Z.
Proof.
  do 2 eexists. split; [ reflexivity | ].
  destruct (initializeIntrinsics_postcondition (T := unit) getTestProjection _
              threeCornerObservation [] threeCornerTarget false _
              eq_refl eq_refl) as (_ & _ & Hru & Hrv & _).
  split; [ exact Hru | exact Hrv ].
Defined.

Lemma intersectCircles_tangent_point_witness :
  exists p,
    PinholeHelpers.intersectCircles 0 0 1 2 0 1 = PinholeHelpers.Vector [p].
Proof.
  assert (Hd : chordDistance 0 0 2 0 = 2).
  { unfold chordDistance, hypot, square.
    replace ((0 - 2) * (0 - 2) + (0 - 0) * (0 - 0)) with (2 * 2) by ring.
    apply sqrt_square. lra. }
  assert (Ha : chordOffset 1 1 2 = 1) by (unfold chordOffset, square; field).
  assert (Hh : chordHalfHeight 1 1 = 0).
  { unfold chordHalfHeight, square.
    replace (1 * 1 - 1 * 1) with 0 by ring. apply sqrt_0. }
  destruct (intersectCircles_tangent_point 0 0 1 2 0 1) as (p & Hp & _).
  - rewrite Hd. lra.
  - rewrite Hd. lra.
  - rewrite Hd. replace (1 - 1) with 0 by ring. rewrite Rabs_R0. lra.
  - rewrite Hd, Ha, Hh. lra.
  - exists p. exact Hp.
Defined.

Lemma intersectCircles_complete_witness :
  PinholeHelpers.contents (PinholeHelpers.intersectCircles 0 0 5 6 0 5) <> [].
Proof.
  apply (intersectCircles_complete 0 0 5 6 0 5 3 4).
  - lra.
  - lra.
  - unfold sqdist, square. lra.
  - unfold sqdist, square. lra.
Defined.

(* ================================================================== *)
(** * Antipodal points and the two homogeneous overloads *)

Section AntipodeExtras.

Context {D : Type} `{Distortion D}.

(** A point and its antipode are normalised to the same image-plane
    point, so they get the same keypoint. *)
Lemma project_antipode_keypoint (P : PinholeProjection D) (p : Vector3d) :
  snd (euclideanToKeypoint P (neg3 p)) = snd (euclideanToKeypoint P p).
Proof.
  unfold euclideanToKeypoint, neg3; simpl.
  assert (Hx : forall x, - x * (1 / - v3_2 p) = x * (1 / v3_2 p)).
  { intros x. unfold Rdiv. rewrite Rinv_opp. ring. }
  rewrite !Hx. reflexivity.
Qed.

(** X24.  A point and its antipode project to the same keypoint, at most
    one of the two is visible, and a point with [z <= 0] is never
    visible. *)
Theorem euclideanToKeypoint_antipode (P : PinholeProjection D)
    (p : Vector3d) :
  snd (euclideanToKeypoint P (neg3 p)) = snd (euclideanToKeypoint P p) /\
  (isEuclideanVisible P p = true -> isEuclideanVisible P (neg3 p) = false) /\
  (v3_2 p <= 0 -> isEuclideanVisible P p = false).
Proof.
  split; [ apply project_antipode_keypoint | ].
  unfold isEuclideanVisible, euclideanToKeypoint; simpl.
  split.
  - rewrite andb_true_iff, gtb_true_iff. intros [_ Hz].
    apply andb_false_iff. right. apply gtb_false_iff. lra.
  - intros Hz. apply andb_false_iff. right. apply gtb_false_iff. exact Hz.
Qed.

(** X25.  For [ph.w < 0] and [ph.z <> 0] the two overloads of
    [homogeneousToKeypoint] write the same keypoint but, when that
    keypoint is valid, return opposite results: the plain overload judges
    [-ph.xyz], the overload with a Jacobian [ph.xyz]. *)
Theorem homogeneousToKeypoint_overloads_disagree (P : PinholeProjection D)
    (ph : Vector4d) (outJp : Matrix) :
  specificSizeOrDynamic outJp 2 4 ->
  v4_3 ph < 0 -> v4_2 ph <> 0 ->
  exists success k J,
    homogeneousToKeypointJ P ph outJp = Some (Ok (success, k, J)) /\
    snd (homogeneousToKeypoint P ph) = k /\
    (isValid P k = true -> fst (homogeneousToKeypoint P ph) = negb success).
Proof.
  intros Hsz Hw Hz.
  assert (Hres : exists J0, resize outJp 2 4 = Ok J0 /\
                            rows J0 = 2%nat /\ cols J0 = 4%nat).
  { destruct outJp as [fx r c co].
    unfold specificSizeOrDynamic in Hsz; simpl in Hsz.
    unfold resize; simpl. destruct fx.
    - destruct (Hsz eq_refl) as [-> ->]. simpl.
      eexists; split; [ reflexivity | auto ].
    - eexists; split; [ reflexivity | auto ]. }
  destruct Hres as (J0 & HJ0 & Hr & Hc).
  destruct (projectIntoTopLeft_2x4 P (head3 ph) J0 Hr Hc)
    as (J & Je & HJ & _).
  exists (fst (euclideanToKeypoint P (head3 ph))),
         (snd (euclideanToKeypoint P (head3 ph))), J.
  split.
  { unfold homogeneousToKeypointJ, KeypointDimension.
    rewrite HJ0. unfold Flow.seq, Flow.run. cbv zeta. rewrite HJ.
    reflexivity. }
  unfold homogeneousToKeypoint.
  apply ltb_true_iff in Hw. rewrite Hw.
  split; [ apply project_antipode_keypoint | ].
  pose proof (project_antipode_keypoint P (head3 ph)) as Hk.
  unfold euclideanToKeypoint in Hk |- *. cbv zeta in Hk |- *.
  cbn [fst snd] in Hk |- *. rewrite Hk.
  intros Hvalid. rewrite Hvalid. cbn [andb v3_2 neg3 head3].
  destruct (Rlt_dec 0 (v4_2 ph)) as [Hpos|Hneg].
  - replace (gtb (v4_2 ph) 0) with true
      by (symmetry; apply gtb_true_iff; lra).
    apply gtb_false_iff. lra.
  - replace (gtb (v4_2 ph) 0) with false
      by (symmetry; apply gtb_false_iff; lra).
    apply gtb_true_iff. lra.
Qed.


End AntipodeExtras.

Lemma homogeneousToKeypoint_overloads_disagree_witness :
  specificSizeOrDynamic emptyMatrixXd 2 4 /\
  exists success k J,
    homogeneousToKeypointJ getTestProjection (Vec4 0 0 1 (-1)) emptyMatrixXd
    = Some (Ok (success, k, J)) /\
    snd (homogeneousToKeypoint getTestProjection (Vec4 0 0 1 (-1))) = k.
Proof.
  assert (Hsz : specificSizeOrDynamic emptyMatrixXd 2 4).
  { unfold specificSizeOrDynamic; simpl; discriminate. }
  split; [ exact Hsz | ].
  destruct (homogeneousToKeypoint_overloads_disagree getTestProjection
              (Vec4 0 0 1 (-1)) emptyMatrixXd Hsz)
    as (success & k & J & HJ & Hk & _).
  - simpl; lra.
  - simpl; lra.
  - exists success, k, J. split; assumption.
Defined.

Lemma euclideanToKeypoint_antipode_witness :
  v3_2 (Vec3 0 0 (-1)) <= 0 /\
  isEuclideanVisible getTestProjection (Vec3 0 0 (-1)) = false.
Proof.
  assert (Hz : v3_2 (Vec3 0 0 (-1)) <= 0) by (simpl; lra).
  split; [ exact Hz | ].
  exact (proj2 (proj2 (euclideanToKeypoint_antipode getTestProjection
                         (Vec3 0 0 (-1)))) Hz).
Defined.

